(** * Methane Kit graphics core: command list, resource manager, render pass

    A shallow embedding of
    - [Methane/Graphics/CommandListBase.cpp]
    - [Methane/Graphics/ResourceManager.cpp]
    - [Methane/Graphics/RenderPassBase.cpp]
    and the properties of their state machines and caches.

    Member functions become functions of the object they are called on.  A
    C++ exception leaves the object as it is at the [throw]; both ways out
    of a call therefore carry the object. *)

From Stdlib Require Import ZArith Lia.
From stdpp Require Import base tactics option list strings gmap vector finite.

Open Scope Z_scope.

(** ** Calls that may throw *)

(** The three standard exception classes the sources throw. *)
Inductive exception :=
| logic_error
| invalid_argument
| underflow_error.

#[global] Instance exception_eq_dec : EqDecision exception.
Proof. solve_decision. Defined.

(** How a call on an object of type [S] ends: it returns [a] and leaves the
    object as [s], or it throws [e] with the object left as [s]. *)
Inductive outcome (S A : Type) :=
| Return (a : A) (s : S)
| Throw (e : exception) (s : S).
Arguments Return {S A} a s.
Arguments Throw {S A} e s.

(** The object a call leaves behind, whichever way it ends. *)
Definition object_after {S A} (o : outcome S A) : S :=
  match o with Return _ s | Throw _ s => s end.

Definition returned {S A} (o : outcome S A) : option A :=
  match o with Return a _ => Some a | Throw _ _ => None end.

Definition thrown {S A} (o : outcome S A) : option exception :=
  match o with Return _ _ => None | Throw e _ => Some e end.

(** A member function body: reads and writes [this], may throw. *)
Definition M (S A : Type) : Type := S → outcome S A.

Definition ret {S A} (a : A) : M S A := λ s, Return a s.
Definition throw {S A} (e : exception) : M S A := λ s, Throw e s.
Definition bind {S A B} (m : M S A) (k : A → M S B) : M S B :=
  λ s, match m s with
       | Return a s' => k a s'
       | Throw e s' => Throw e s'
       end.
Definition get {S} : M S S := λ s, Return s s.
Definition put {S} (s : S) : M S unit := λ _, Return tt s.
Definition modify {S} (f : S → S) : M S unit := λ s, Return tt (f s).
(** [if (c) body] with no [else]. *)
Definition when {S} (c : bool) (body : M S unit) : M S unit :=
  if c then body else ret tt.

Declare Scope call_scope.
Delimit Scope call_scope with call.
Notation "x <- m ;; k" := (bind m (λ x, k))
  (at level 20, m at level 99, k at level 200) : call_scope.
Notation "' pat <- m ;; k" := (bind m (λ pat, k))
  (at level 20, pat pattern, m at level 99, k at level 200) : call_scope.
Notation "m ;; k" := (bind m (λ _, k))
  (at level 100, k at level 200, right associativity) : call_scope.
Open Scope call_scope.

(** [for (x : xs) body]. *)
Fixpoint for_each {S X} (xs : list X) (body : X → M S unit) : M S unit :=
  match xs with
  | [] => ret tt
  | x :: rest => body x ;; for_each rest body
  end.

(** A call that works on [this] and on what its callback captured, started
    with [a] captured; the captured value is dropped at the end. *)
Definition with_captured {S A} (a : A) (m : M (S * A) unit) : M S unit :=
  λ s, match m (s, a) with
       | Return r (s', _) => Return r s'
       | Throw e (s', _) => Throw e s'
       end.

(** [uint32_t] values, as the integers from 0 below 2^32. *)
Definition uint32 : Type := Z.
Definition uint32_modulus : Z := 2 ^ 32.
(** [static_cast<uint32_t>] of a [size_t]. *)
Definition to_uint32 (z : Z) : uint32 := z mod uint32_modulus.

(** An object's address; [Ptr T] is a pointer that may be null. *)
Definition address : Type := N.
Definition Ptr (T : Type) : Type := option T.

(** * CommandListBase.cpp *)
Module CommandListBase.

(** [CommandList::State], as [GetStateName] enumerates it. *)
Inductive State := Pending | Committed | Executing.

#[global] Instance State_eq_dec : EqDecision State.
Proof. solve_decision. Defined.

(** [CommandListBase::CommandState]: the recording state; only its
    program-bindings pointer is used by the base class. *)
Record CommandState := mkCommandState {
  p_program_bindings : Ptr address;
}.

(** Modelled from the spec: [CommandState::Create] (declared in
    CommandListBase.h, defined by the render command list; neither is under
    src/).  A fresh recording state has its program-bindings pointer
    cleared. *)
Definition CommandState_Create (type : N) : CommandState :=
  {| p_program_bindings := None |}.

(** What [Commit] reads through [m_sp_command_queue]: the queue's current
    frame-buffer index at the time of the call.  The queue is shared with the
    render context, which advances it; it is passed to the call. *)
Record CommandQueueBase := mkCommandQueue {
  GetCurrentFrameBufferIndex : uint32;
}.

Record CommandListBase := mkCommandList {
  (** [CommandList::Type], kept as the enumerator's number. *)
  m_type : N;
  m_sp_command_state : CommandState;
  m_state : State;
  m_committed_frame_index : uint32;
  (** [std::stack] of references into [m_debug_group_names]; top first. *)
  m_open_debug_groups : list string;
  (** [std::set<std::string>]: the pool of debug-group names. *)
  m_debug_group_names : gset string;
}.

Definition set_command_state (cs : CommandState) (cl : CommandListBase) :=
  {| m_type := m_type cl; m_sp_command_state := cs; m_state := m_state cl;
     m_committed_frame_index := m_committed_frame_index cl;
     m_open_debug_groups := m_open_debug_groups cl;
     m_debug_group_names := m_debug_group_names cl |}.

Definition set_state (st : State) (cl : CommandListBase) :=
  {| m_type := m_type cl; m_sp_command_state := m_sp_command_state cl;
     m_state := st;
     m_committed_frame_index := m_committed_frame_index cl;
     m_open_debug_groups := m_open_debug_groups cl;
     m_debug_group_names := m_debug_group_names cl |}.

Definition set_committed_frame_index (f : uint32) (cl : CommandListBase) :=
  {| m_type := m_type cl; m_sp_command_state := m_sp_command_state cl;
     m_state := m_state cl; m_committed_frame_index := f;
     m_open_debug_groups := m_open_debug_groups cl;
     m_debug_group_names := m_debug_group_names cl |}.

Definition set_open_debug_groups (gs : list string) (cl : CommandListBase) :=
  {| m_type := m_type cl; m_sp_command_state := m_sp_command_state cl;
     m_state := m_state cl;
     m_committed_frame_index := m_committed_frame_index cl;
     m_open_debug_groups := gs;
     m_debug_group_names := m_debug_group_names cl |}.

Definition set_debug_group_names (ns : gset string) (cl : CommandListBase) :=
  {| m_type := m_type cl; m_sp_command_state := m_sp_command_state cl;
     m_state := m_state cl;
     m_committed_frame_index := m_committed_frame_index cl;
     m_open_debug_groups := m_open_debug_groups cl;
     m_debug_group_names := ns |}.

(** The constructor.  The members it does not list take their in-class
    initialisers of CommandListBase.h (not under src/): the state machine
    starts in [Pending] with frame index 0, no open group, an empty pool. *)
Definition new (type : N) : CommandListBase :=
  {| m_type := type;
     m_sp_command_state := CommandState_Create type;
     m_state := Pending;
     m_committed_frame_index := 0;
     m_open_debug_groups := [];
     m_debug_group_names := ∅ |}.

Definition stack_empty (cl : CommandListBase) : bool :=
  bool_decide (m_open_debug_groups cl = []).

(** [PushOpenDebugGroup]: the name is interned in the pool and the pooled
    string is put on the stack. *)
Definition PushOpenDebugGroup (name : string) : M CommandListBase string :=
  modify (λ cl, set_debug_group_names ({[ name ]} ∪ m_debug_group_names cl) cl) ;;
  modify (λ cl, set_open_debug_groups (name :: m_open_debug_groups cl) cl) ;;
  ret name.

Definition PushDebugGroup (name : string) : M CommandListBase unit :=
  dict_name <- PushOpenDebugGroup name ;;
  ret tt.

Definition PopDebugGroup : M CommandListBase unit :=
  cl <- get ;;
  if stack_empty cl then throw underflow_error
  else modify (set_open_debug_groups (tail (m_open_debug_groups cl))).

(** [GetTopOpenDebugGroup]. *)
Definition GetTopOpenDebugGroup (cl : CommandListBase) : string :=
  match m_open_debug_groups cl with
  | [] => ""
  | top :: _ => top
  end.

Definition Reset (debug_group : string) : M CommandListBase unit :=
  cl <- get ;;
  if negb (bool_decide (m_state cl = Pending)) then throw logic_error
  else
    let debug_group_changed :=
      stack_empty cl
      || negb (bool_decide (hd ""%string (m_open_debug_groups cl) = debug_group)) in
    when (negb (stack_empty cl) && debug_group_changed) PopDebugGroup ;;
    when (negb (bool_decide (debug_group = ""%string)) && debug_group_changed)
         (PushDebugGroup debug_group).

(** [SetProgramBindings]; [ProgramBindingsBase::Apply] writes to the backend
    command buffer and none of the members above. *)
Definition SetProgramBindings (program_bindings : address)
    : M CommandListBase unit :=
  cl <- get ;;
  if negb (bool_decide (m_state cl = Pending)) then throw logic_error
  else
    modify (set_command_state {| p_program_bindings := Some program_bindings |}).

Definition GetCurrentFrameIndex (queue : CommandQueueBase) : uint32 :=
  GetCurrentFrameBufferIndex queue.

Definition Commit (queue : CommandQueueBase) : M CommandListBase unit :=
  cl <- get ;;
  if negb (bool_decide (m_state cl = Pending)) then throw logic_error
  else
    modify (set_committed_frame_index (GetCurrentFrameIndex queue)) ;;
    modify (set_state Committed) ;;
    cl <- get ;;
    when (negb (stack_empty cl)) PopDebugGroup.

Definition Execute (frame_index : uint32) : M CommandListBase unit :=
  cl <- get ;;
  if negb (bool_decide (m_state cl = Committed)) then throw logic_error
  else if negb (bool_decide (m_committed_frame_index cl = frame_index))
  then throw logic_error
  else modify (set_state Executing).

Definition Complete (frame_index : uint32) : M CommandListBase unit :=
  cl <- get ;;
  if negb (bool_decide (m_state cl = Executing)) then throw logic_error
  else if negb (bool_decide (m_committed_frame_index cl = frame_index))
  then throw logic_error
  else modify (set_state Pending).

(** [ClearOpenDebugGroups]: pops until the stack is empty. *)
Fixpoint pop_all (gs : list string) : list string :=
  match gs with
  | [] => []
  | _ :: rest => pop_all rest
  end.

Definition ClearOpenDebugGroups : M CommandListBase unit :=
  modify (λ cl, set_open_debug_groups (pop_all (m_open_debug_groups cl)) cl).

Definition IsExecutingOnAnyFrame (cl : CommandListBase) : bool :=
  bool_decide (m_state cl = Executing).

Definition IsCommitted (frame_index : uint32) (cl : CommandListBase) : bool :=
  bool_decide (m_state cl = Committed)
  && bool_decide (m_committed_frame_index cl = frame_index).

Definition IsExecuting (frame_index : uint32) (cl : CommandListBase) : bool :=
  bool_decide (m_state cl = Executing)
  && bool_decide (m_committed_frame_index cl = frame_index).

Definition ResetCommandState : M CommandListBase unit :=
  modify (λ cl, set_command_state (CommandState_Create (m_type cl)) cl).

(** *** Histories of calls

    The caller's view of a list over time: a sequence of calls of its public
    and protected members, each of which returns or throws; the caller keeps
    the list either way. *)
Inductive Call :=
| CallReset (debug_group : string)
| CallPushDebugGroup (name : string)
| CallPopDebugGroup
| CallSetProgramBindings (program_bindings : address)
| CallCommit (queue : CommandQueueBase)
| CallExecute (frame_index : uint32)
| CallComplete (frame_index : uint32)
| CallClearOpenDebugGroups
| CallResetCommandState.

Definition invoke (c : Call) : M CommandListBase unit :=
  match c with
  | CallReset g => Reset g
  | CallPushDebugGroup n => PushDebugGroup n
  | CallPopDebugGroup => PopDebugGroup
  | CallSetProgramBindings pb => SetProgramBindings pb
  | CallCommit q => Commit q
  | CallExecute f => Execute f
  | CallComplete f => Complete f
  | CallClearOpenDebugGroups => ClearOpenDebugGroups
  | CallResetCommandState => ResetCommandState
  end.

Fixpoint run (calls : list Call) (cl : CommandListBase) : CommandListBase :=
  match calls with
  | [] => cl
  | c :: rest => run rest (object_after (invoke c cl))
  end.

(** The frame index recorded by the most recent [Commit] that returned:
    a call [c] that ended as [o] replaces the earlier answer [recorded] when
    it is such a [Commit]. *)
Definition record_commit (c : Call) (o : outcome CommandListBase unit)
    (recorded : option uint32) : option uint32 :=
  match c, o with
  | CallCommit q, Return _ _ => Some (GetCurrentFrameIndex q)
  | _, _ => recorded
  end.

Fixpoint last_commit (calls : list Call) (cl : CommandListBase)
    (recorded : option uint32) : option uint32 :=
  match calls with
  | [] => recorded
  | c :: rest =>
      last_commit rest (object_after (invoke c cl))
        (record_commit c (invoke c cl) recorded)
  end.

(** Every call of the history returned. *)
Fixpoint all_return (calls : list Call) (cl : CommandListBase) : bool :=
  match calls with
  | [] => true
  | c :: rest =>
      match invoke c cl with
      | Return _ cl' => all_return rest cl'
      | Throw _ _ => false
      end
  end.

Definition is_complete_call (c : Call) : bool :=
  match c with CallComplete _ => true | _ => false end.

(** [PushDebugGroup] of each name in turn, and [n] calls of [PopDebugGroup]. *)
Definition pushes (names : list string) : list Call :=
  map CallPushDebugGroup names.
Definition pops (n : nat) : list Call := replicate n CallPopDebugGroup.

(** What a legal [Reset] leaves on the debug-group stack. *)
Definition groups_after_Reset (debug_group : string) (groups : list string)
    : list string :=
  match groups with
  | [] => if bool_decide (debug_group = ""%string) then [] else [debug_group]
  | top :: rest =>
      if bool_decide (top = debug_group) then top :: rest
      else if bool_decide (debug_group = ""%string) then rest
      else debug_group :: rest
  end.

(** The members a push or a pop leaves alone. *)
Definition same_recording (cl cl' : CommandListBase) : Prop :=
  m_type cl' = m_type cl
  ∧ m_sp_command_state cl' = m_sp_command_state cl
  ∧ m_state cl' = m_state cl
  ∧ m_committed_frame_index cl' = m_committed_frame_index cl.

(** The ghost [recorded] agrees with the list: while no [Commit] has
    returned the list is [Pending], and afterwards the committed frame index
    is the one the latest returning [Commit] read from the queue. *)
Definition tracks (recorded : option uint32) (cl : CommandListBase) : Prop :=
  (recorded = None → m_state cl = Pending)
  ∧ (∀ x, recorded = Some x → m_committed_frame_index cl = x).

(** *** Kinds of calls *)

Definition is_push_call (c : Call) : bool :=
  match c with CallPushDebugGroup _ => true | _ => false end.

(** The calls that write [m_sp_command_state]. *)
Definition sets_command_state (c : Call) : bool :=
  match c with
  | CallSetProgramBindings _ | CallResetCommandState => true
  | _ => false
  end.

End CommandListBase.

(** * DescriptorHeap, as ResourceManager.cpp uses it *)
Module DescriptorHeap.
Section HeapTypes.

(** [static_cast<uint32_t>(DescriptorHeap::Type::Count)]: how many heap types
    the enumeration of DescriptorHeap.h (not under src/) has. *)
Variable types_count : nat.

(** [DescriptorHeap::Type]: the heap types, numbered from 0, and the two
    sentinels [Count] and [Undefined]. *)
Inductive HeapType :=
| Enumerator (index : fin types_count)
| Count
| Undefined.

#[global] Instance HeapType_eq_dec : EqDecision HeapType.
Proof. solve_decision. Defined.

(** [DescriptorHeap::Settings], in the order the braces of [Initialize] list
    its members. *)
Record Settings := mkSettings {
  type : HeapType;
  size : uint32;
  deferred_allocation : bool;
  shader_visible : bool;
}.

Record DescriptorHeap := mkDescriptorHeap {
  m_settings : Settings;
}.

(** Modelled from the spec: [DescriptorHeap::Create], [GetSettings],
    [IsShaderVisible] and [SetDeferredAllocation] (DescriptorHeap.h and the
    backends' heaps are not under src/).  A heap is typed by its settings'
    heap type and tagged shader-visible or CPU-only by them; creation gives a
    heap, never a null pointer. *)
Definition Create (settings : Settings) : Ptr DescriptorHeap :=
  Some {| m_settings := settings |}.

Definition GetSettings (heap : DescriptorHeap) : Settings := m_settings heap.

Definition IsShaderVisible (heap : DescriptorHeap) : bool :=
  shader_visible (m_settings heap).

Definition SetDeferredAllocation (deferred_allocation' : bool)
    (heap : DescriptorHeap) : DescriptorHeap :=
  {| m_settings :=
       {| type := type (m_settings heap);
          size := size (m_settings heap);
          deferred_allocation := deferred_allocation';
          shader_visible := shader_visible (m_settings heap) |} |}.

End HeapTypes.
Arguments Enumerator {types_count} index.
Arguments Count {types_count}.
Arguments Undefined {types_count}.
Arguments mkSettings {types_count} _ _ _ _.
Arguments type {types_count} _.
Arguments size {types_count} _.
Arguments deferred_allocation {types_count} _.
Arguments shader_visible {types_count} _.
Arguments mkDescriptorHeap {types_count} _.
Arguments m_settings {types_count} _.
Arguments Create {types_count} settings.
Arguments GetSettings {types_count} heap.
Arguments IsShaderVisible {types_count} heap.
Arguments SetDeferredAllocation {types_count} _ heap.
End DescriptorHeap.

(** * ResourceManager.cpp *)
Module ResourceManager.
Import DescriptorHeap.
Section Manager.

Variable types_count : nat.
(** [DescriptorHeap::IsShaderVisibleHeapType] (DescriptorHeap.h, not under
    src/): which heap types can have a shader-visible heap. *)
Variable IsShaderVisibleHeapType : HeapType types_count → bool.

Abbreviation HeapType := (HeapType types_count).
Abbreviation DescriptorHeap := (DescriptorHeap types_count).
(** [Ptrs<DescriptorHeap>]: a vector of shared pointers. *)
Abbreviation DescriptorHeaps := (list (Ptr DescriptorHeap)).

(** [ResourceManager::Settings]; both size tables are arrays indexed by heap
    type. *)
Record Settings := mkSettings {
  deferred_heap_allocation : bool;
  default_heap_sizes : vec uint32 types_count;
  shader_visible_heap_sizes : vec uint32 types_count;
}.

Record ResourceManager := mkResourceManager {
  m_deferred_heap_allocation : bool;
  (** [std::array<Ptrs<DescriptorHeap>, Count>]: one bucket per heap type. *)
  m_descriptor_heap_types : vec DescriptorHeaps types_count;
  (** [WeakPtrs<ProgramBindings>]. *)
  m_program_bindings : list address;
  (** The release pool: the resources waiting to be destroyed. *)
  m_sp_release_pool : Ptr (list address);
}.

Definition set_deferred_heap_allocation (b : bool) (rm : ResourceManager) :=
  {| m_deferred_heap_allocation := b;
     m_descriptor_heap_types := m_descriptor_heap_types rm;
     m_program_bindings := m_program_bindings rm;
     m_sp_release_pool := m_sp_release_pool rm |}.

Definition set_descriptor_heap_types (hs : vec DescriptorHeaps types_count)
    (rm : ResourceManager) :=
  {| m_deferred_heap_allocation := m_deferred_heap_allocation rm;
     m_descriptor_heap_types := hs;
     m_program_bindings := m_program_bindings rm;
     m_sp_release_pool := m_sp_release_pool rm |}.

Definition set_program_bindings (pbs : list address) (rm : ResourceManager) :=
  {| m_deferred_heap_allocation := m_deferred_heap_allocation rm;
     m_descriptor_heap_types := m_descriptor_heap_types rm;
     m_program_bindings := pbs;
     m_sp_release_pool := m_sp_release_pool rm |}.

Definition set_release_pool (pool : Ptr (list address)) (rm : ResourceManager) :=
  {| m_deferred_heap_allocation := m_deferred_heap_allocation rm;
     m_descriptor_heap_types := m_descriptor_heap_types rm;
     m_program_bindings := m_program_bindings rm;
     m_sp_release_pool := pool |}.

(** [m_descriptor_heap_types[idx]]. *)
Definition desc_heaps_of (idx : fin types_count) (rm : ResourceManager)
    : DescriptorHeaps :=
  m_descriptor_heap_types rm !!! idx.

(** An update of [m_descriptor_heap_types[idx]] through a reference. *)
Definition update_desc_heaps (idx : fin types_count)
    (f : DescriptorHeaps → DescriptorHeaps) (rm : ResourceManager) :=
  set_descriptor_heap_types
    (vinsert idx (f (desc_heaps_of idx rm)) (m_descriptor_heap_types rm)) rm.

(** The constructor: empty buckets and a fresh release pool; the flag takes
    its in-class initialiser of ResourceManager.h (not under src/). *)
Definition new : ResourceManager :=
  {| m_deferred_heap_allocation := false;
     m_descriptor_heap_types := fun_to_vec (λ _, []);
     m_program_bindings := [];
     m_sp_release_pool := Some [] |}.

(** The body of the loop of [Initialize] over the heap types. *)
Definition Initialize_heap_type (settings : Settings)
    (heap_type_idx : fin types_count) : M ResourceManager unit :=
  let heap_type := Enumerator heap_type_idx in
  modify (update_desc_heaps heap_type_idx (λ _, [])) ;;
  (rm <- get ;;
   let heap_size := default_heap_sizes settings !!! heap_type_idx in
   let heap_settings :=
     DescriptorHeap.mkSettings heap_type heap_size
       (m_deferred_heap_allocation rm) false in
   modify (update_desc_heaps heap_type_idx
             (λ desc_heaps, desc_heaps ++ [Create heap_settings]))) ;;
  when (IsShaderVisibleHeapType heap_type)
    (rm <- get ;;
     let heap_size := shader_visible_heap_sizes settings !!! heap_type_idx in
     let heap_settings :=
       DescriptorHeap.mkSettings heap_type heap_size
         (m_deferred_heap_allocation rm) true in
     modify (update_desc_heaps heap_type_idx
               (λ desc_heaps, desc_heaps ++ [Create heap_settings]))).

Definition Initialize (settings : Settings) : M ResourceManager unit :=
  modify (set_deferred_heap_allocation (deferred_heap_allocation settings)) ;;
  for_each (enum (fin types_count)) (Initialize_heap_type settings).

(** [Release]: the pool's [ReleaseResources] destroys what is pending. *)
Definition Release : M ResourceManager unit :=
  modify (λ rm, match m_sp_release_pool rm with
                | Some _ => set_release_pool (Some []) rm
                | None => rm
                end) ;;
  modify (λ rm, set_descriptor_heap_types
                  (vmap (λ _, []) (m_descriptor_heap_types rm)) rm).

(** [AddProgramBindings], as built without [_DEBUG]. *)
Definition AddProgramBindings (program_bindings : address)
    : M ResourceManager unit :=
  modify (λ rm, set_program_bindings
                  (m_program_bindings rm ++ [program_bindings]) rm).

Definition CreateDescriptorHeap (settings : DescriptorHeap.Settings types_count)
    : M ResourceManager uint32 :=
  match type settings with
  | Undefined | Count => throw invalid_argument
  | Enumerator idx =>
      modify (update_desc_heaps idx
                (λ desc_heaps, desc_heaps ++ [Create settings])) ;;
      rm <- get ;;
      ret (to_uint32 (Z.of_nat (length (desc_heaps_of idx rm)) - 1))
  end.

Definition GetDescriptorHeapPtr (type : HeapType) (heap_index : uint32)
    : M ResourceManager (Ptr DescriptorHeap) :=
  match type with
  | Undefined | Count => ret None
  | Enumerator idx =>
      rm <- get ;;
      let desc_heaps := desc_heaps_of idx rm in
      if Z.of_nat (length desc_heaps) <=? heap_index
      then throw invalid_argument
      else ret (default None (desc_heaps !! Z.to_nat heap_index))
  end.

Definition GetDescriptorHeap (type : HeapType) (heap_index : uint32)
    : M ResourceManager DescriptorHeap :=
  match type with
  | Undefined | Count => throw invalid_argument
  | Enumerator _ =>
      sp_resource_heap <- GetDescriptorHeapPtr type heap_index ;;
      match sp_resource_heap with
      | None => throw invalid_argument
      | Some heap => ret heap
      end
  end.

Definition GetDefaultShaderVisibleDescriptorHeapPtr (type : HeapType)
    : M ResourceManager (Ptr DescriptorHeap) :=
  match type with
  | Undefined | Count => ret None
  | Enumerator idx =>
      rm <- get ;;
      ret (default None
             (List.find (λ sp_descriptor_heap : Ptr DescriptorHeap,
                      match sp_descriptor_heap with
                      | Some heap => shader_visible (GetSettings heap)
                      | None => false
                      end)
                   (desc_heaps_of idx rm)))
  end.

Definition GetDefaultShaderVisibleDescriptorHeap (type : HeapType)
    : M ResourceManager DescriptorHeap :=
  sp_resource_heap <- GetDefaultShaderVisibleDescriptorHeapPtr type ;;
  match sp_resource_heap with
  | None => throw invalid_argument
  | Some heap => ret heap
  end.

(** The inner loop of [ForEachDescriptorHeap] over one bucket.  The callback
    gets the heap by reference and may update it and what it captured ([A]).
    Both ways out carry the bucket as the loop leaves it: the heaps before
    the offending one have been processed. *)
Fixpoint for_each_heap {A} (desc_heaps_type : HeapType)
    (process_heap : DescriptorHeap → A → DescriptorHeap * A)
    (desc_heaps : DescriptorHeaps) (a : A)
    : outcome (DescriptorHeaps * A) unit :=
  match desc_heaps with
  | [] => Return tt ([], a)
  | None :: _ => Throw logic_error (desc_heaps, a)
  | Some heap :: rest =>
      let heap_type := type (GetSettings heap) in
      if negb (bool_decide (heap_type = desc_heaps_type))
      then Throw logic_error (desc_heaps, a)
      else
        let '(heap', a') := process_heap heap a in
        match for_each_heap desc_heaps_type process_heap rest a' with
        | Return _ (rest', a'') => Return tt (Some heap' :: rest', a'')
        | Throw e (rest', a'') => Throw e (Some heap' :: rest', a'')
        end
  end.

(** The body of the outer loop of [ForEachDescriptorHeap]. *)
Definition for_each_heap_of_type {A}
    (process_heap : DescriptorHeap → A → DescriptorHeap * A)
    (heap_type_idx : fin types_count) : M (ResourceManager * A) unit :=
  λ '(rm, a),
    let desc_heaps_type := Enumerator heap_type_idx in
    let desc_heaps := desc_heaps_of heap_type_idx rm in
    match for_each_heap desc_heaps_type process_heap desc_heaps a with
    | Return _ (desc_heaps', a') =>
        Return tt (update_desc_heaps heap_type_idx (λ _, desc_heaps') rm, a')
    | Throw e (desc_heaps', a') =>
        Throw e (update_desc_heaps heap_type_idx (λ _, desc_heaps') rm, a')
    end.

Definition ForEachDescriptorHeap {A}
    (process_heap : DescriptorHeap → A → DescriptorHeap * A)
    : M (ResourceManager * A) unit :=
  for_each (enum (fin types_count)) (for_each_heap_of_type process_heap).

Definition SetDeferredHeapAllocation (deferred_heap_allocation' : bool)
    : M ResourceManager unit :=
  rm <- get ;;
  if bool_decide (m_deferred_heap_allocation rm = deferred_heap_allocation')
  then ret tt
  else
    modify (set_deferred_heap_allocation deferred_heap_allocation') ;;
    with_captured tt
      (ForEachDescriptorHeap
         (λ descriptor_heap _,
            (SetDeferredAllocation deferred_heap_allocation' descriptor_heap,
             tt))).

(** *** Histories of calls that change the manager *)
Inductive Call :=
| CallInitialize (settings : Settings)
| CallRelease
| CallSetDeferredHeapAllocation (deferred_heap_allocation' : bool)
| CallAddProgramBindings (program_bindings : address)
| CallCreateDescriptorHeap (settings : DescriptorHeap.Settings types_count).

Definition invoke (c : Call) : M ResourceManager unit :=
  match c with
  | CallInitialize s => Initialize s
  | CallRelease => Release
  | CallSetDeferredHeapAllocation b => SetDeferredHeapAllocation b
  | CallAddProgramBindings pb => AddProgramBindings pb
  | CallCreateDescriptorHeap s => CreateDescriptorHeap s ;; ret tt
  end.

Fixpoint run (calls : list Call) (rm : ResourceManager) : ResourceManager :=
  match calls with
  | [] => rm
  | c :: rest => run rest (object_after (invoke c rm))
  end.

(** The members other than the buckets and the flag. *)
Definition same_registry (rm rm' : ResourceManager) : Prop :=
  m_program_bindings rm' = m_program_bindings rm
  ∧ m_sp_release_pool rm' = m_sp_release_pool rm.

(** The bucket invariant: every pointer stored under heap type [idx] is set
    and its heap reports that type. *)
Definition heap_typed (idx : fin types_count) (sp : Ptr DescriptorHeap) : Prop :=
  ∃ heap, sp = Some heap ∧ type (GetSettings heap) = Enumerator idx.

Definition heaps_typed (rm : ResourceManager) : Prop :=
  ∀ idx, Forall (heap_typed idx) (desc_heaps_of idx rm).

(** What [Initialize] is to leave in the bucket of heap type [idx]: one
    CPU-only heap of the default size and, for a shader-visible-capable
    type, one shader-visible heap of the shader-visible size. *)
Definition initial_heaps (settings : Settings) (idx : fin types_count)
    : DescriptorHeaps :=
  Create (DescriptorHeap.mkSettings (Enumerator idx)
            (default_heap_sizes settings !!! idx)
            (deferred_heap_allocation settings) false)
  :: (if IsShaderVisibleHeapType (Enumerator idx)
      then [Create (DescriptorHeap.mkSettings (Enumerator idx)
                      (shader_visible_heap_sizes settings !!! idx)
                      (deferred_heap_allocation settings) true)]
      else []).

(** How many heaps of a bucket are shader-visible, or CPU-only. *)
Definition is_heap_with (visible : bool) (sp : Ptr DescriptorHeap) : bool :=
  match sp with
  | Some heap => bool_decide (IsShaderVisible heap = visible)
  | None => false
  end.

Definition count_heaps (visible : bool) (desc_heaps : DescriptorHeaps) : nat :=
  length (List.filter (is_heap_with visible) desc_heaps).

(** Every pointer the manager stores, bucket after bucket in the order of
    the heap types: the order in which [ForEachDescriptorHeap] visits. *)
Definition all_heaps (rm : ResourceManager) : DescriptorHeaps :=
  concat (map (λ idx, desc_heaps_of idx rm) (enum (fin types_count))).

(** What a callback that only reads the heap has captured after one stored
    pointer. *)
Definition visit {A} (read_heap : DescriptorHeap → A → A) (a : A)
    (sp : Ptr DescriptorHeap) : A :=
  match sp with
  | Some heap => read_heap heap a
  | None => a
  end.

(** The program bindings a history of calls registers, in order. *)
Definition added_program_bindings (calls : list Call) : list address :=
  omap (λ c, match c with
             | CallAddProgramBindings program_bindings => Some program_bindings
             | _ => None
             end) calls.

End Manager.
Arguments mkSettings {types_count} _ _ _.
Arguments deferred_heap_allocation {types_count} _.
Arguments default_heap_sizes {types_count} _.
Arguments shader_visible_heap_sizes {types_count} _.
Arguments m_deferred_heap_allocation {types_count} _.
Arguments m_descriptor_heap_types {types_count} _.
Arguments m_program_bindings {types_count} _.
Arguments m_sp_release_pool {types_count} _.
Arguments desc_heaps_of {types_count} idx rm.
Arguments update_desc_heaps {types_count} idx f rm.
Arguments set_deferred_heap_allocation {types_count} b rm.
Arguments set_descriptor_heap_types {types_count} hs rm.
Arguments CreateDescriptorHeap {types_count} settings.
Arguments GetDescriptorHeapPtr {types_count} type heap_index.
Arguments GetDescriptorHeap {types_count} type heap_index.
Arguments ForEachDescriptorHeap {types_count A} process_heap.
Arguments SetDeferredHeapAllocation {types_count} _.
Arguments Release {types_count}.
Arguments AddProgramBindings {types_count} _.
Arguments same_registry {types_count} rm rm'.
Arguments heap_typed {types_count} idx sp.
Arguments heaps_typed {types_count} rm.
Arguments count_heaps {types_count} visible desc_heaps.
Arguments for_each_heap {types_count A} _ _ _ _.
Arguments for_each_heap_of_type {types_count A} _ _.
Arguments new {types_count}.
Arguments CallInitialize {types_count} settings.
Arguments CallRelease {types_count}.
Arguments CallSetDeferredHeapAllocation {types_count} _.
Arguments CallAddProgramBindings {types_count} _.
Arguments CallCreateDescriptorHeap {types_count} settings.
Arguments all_heaps {types_count} rm.
Arguments visit {types_count A} read_heap a sp.
Arguments added_program_bindings {types_count} calls.
Arguments GetDefaultShaderVisibleDescriptorHeapPtr {types_count} type.
Arguments GetDefaultShaderVisibleDescriptorHeap {types_count} type.

(** *** Scenarios *)

(** Settings of a CPU-only heap of the first of two heap types. *)
Definition first_type_heap (size : uint32) : DescriptorHeap.Settings 2 :=
  DescriptorHeap.mkSettings (DescriptorHeap.Enumerator 0%fin) size false false.

(** A manager of two heap types holding one heap of the first type. *)
Definition one_heap_manager : ResourceManager 2 :=
  object_after (CreateDescriptorHeap (first_type_heap 16) new).

End ResourceManager.

(** * Resources, barriers and textures, as RenderPassBase.cpp uses them *)
Module ResourceBase.

(** Modelled from the spec: [ResourceBase::State] (ResourceBase.h is not
    under src/): an enumerated set with Common, RenderTarget, DepthWrite,
    Present and further states. *)
Inductive State :=
| Common
| RenderTarget
| DepthWrite
| Present
| OtherState (number : nat).

#[global] Instance State_eq_dec : EqDecision State.
Proof. solve_decision. Defined.

Inductive BarrierType := Transition.

(** [ResourceBase::Barrier], with the members in the order
    [CommandListBase::SetResourceTransitionBarriers] initialises them. *)
Record Barrier := mkBarrier {
  barrier_type : BarrierType;
  resource : address;
  state_before : State;
  state_after : State;
}.

(** [ResourceBase::Barriers]: a vector of barriers. *)
Definition Barriers : Type := list Barrier.

(** [Texture::Type]: only [FrameBuffer] is told apart. *)
Inductive TextureType := FrameBuffer | OtherTexture (number : nat).

#[global] Instance TextureType_eq_dec : EqDecision TextureType.
Proof. solve_decision. Defined.

Record TextureBase := mkTexture {
  m_state : State;
  texture_type : TextureType;
}.

Definition GetState (texture : TextureBase) : State := m_state texture.

(** Modelled from the spec: [ResourceBase::SetState] (ResourceBase.cpp is not
    under src/).  The one operation that changes a resource's state: when the
    state actually changes it appends a transition barrier of the resource
    at [this_address] to the barriers it is given, creating the list when
    the pointer is null, and says so; otherwise it changes nothing.  The
    result is: changed, the barriers pointer, the resource. *)
Definition SetState (state : State) (out_barriers : Ptr Barriers)
    (this_address : address) (this : TextureBase)
    : bool * Ptr Barriers * TextureBase :=
  if bool_decide (m_state this = state) then (false, out_barriers, this)
  else
    (true,
     Some (default [] out_barriers
           ++ [ {| barrier_type := Transition; resource := this_address;
                   state_before := m_state this; state_after := state |} ]),
     {| m_state := state; texture_type := texture_type this |}).

(** The textures in memory, by address, and a write to one of them. *)
Definition Textures : Type := address → TextureBase.

Definition write_texture (a : address) (texture : TextureBase)
    (ts : Textures) : Textures :=
  λ a', if decide (a' = a) then texture else ts a'.

(** [RenderCommandListBase], seen from the render pass: the barrier lists it
    was given by [SetResourceBarriers], oldest first. *)
Record RenderCommandListBase := mkRenderCommandList {
  resource_barriers : list Barriers;
}.

Definition SetResourceBarriers (barriers : Barriers)
    (render_command_list : RenderCommandListBase) : RenderCommandListBase :=
  {| resource_barriers := resource_barriers render_command_list ++ [barriers] |}.

(** [CommandListBase::SetResourceTransitionBarriers]: one transition barrier
    per resource, in order, given to [SetResourceBarriers]. *)
Definition SetResourceTransitionBarriers (resources : list address)
    (state_before' state_after' : State)
    (command_list : RenderCommandListBase) : RenderCommandListBase :=
  let resource_barriers :=
    map (λ resource_ref,
           {| barrier_type := Transition; resource := resource_ref;
              state_before := state_before'; state_after := state_after' |})
        resources in
  SetResourceBarriers resource_barriers command_list.

(** How many barriers the command list was given in all. *)
Definition barriers_emitted (render_command_list : RenderCommandListBase) : nat :=
  length (concat (resource_barriers render_command_list)).

End ResourceBase.

(** * RenderPassBase.cpp *)
Module RenderPassBase.
Import ResourceBase.
Section RenderPass.

(** [Color4f] and [Depth] are floating-point types of Methane/Graphics/Types.h
    (not under src/); they are kept abstract, each with its [operator==]. *)
Context {Color4f Depth : Type}.
Variable Color4f_eq : Color4f → Color4f → bool.
Variable Depth_eq : Depth → Depth → bool.

Inductive LoadAction := LoadDontCare | Load | Clear.
Inductive StoreAction := StoreDontCare | Store.

#[global] Instance LoadAction_eq_dec : EqDecision LoadAction.
Proof. solve_decision. Defined.
#[global] Instance StoreAction_eq_dec : EqDecision StoreAction.
Proof. solve_decision. Defined.

(** [RenderPass::Attachment]; [sp_texture] is a shared pointer, compared by
    the address it holds. *)
Record Attachment := mkAttachment {
  sp_texture : Ptr address;
  level : uint32;
  slice : uint32;
  depth_plane : uint32;
  load_action : LoadAction;
  store_action : StoreAction;
}.

Record ColorAttachment := mkColorAttachment {
  color_base : Attachment;
  clear_color : Color4f;
}.

Record DepthAttachment := mkDepthAttachment {
  depth_base : Attachment;
  depth_clear_value : Depth;
}.

Record StencilAttachment := mkStencilAttachment {
  stencil_base : Attachment;
  stencil_clear_value : Z;
}.

Record Settings := mkSettings {
  color_attachments : list ColorAttachment;
  depth_attachment : DepthAttachment;
  stencil_attachment : StencilAttachment;
  shader_access_mask : uint32;
  is_final_pass : bool;
}.

(** [RenderPass::Attachment::operator==] *)
Definition Attachment_eq (this other : Attachment) : bool :=
  bool_decide (sp_texture this = sp_texture other)
  && bool_decide (level this = level other)
  && bool_decide (slice this = slice other)
  && bool_decide (depth_plane this = depth_plane other)
  && bool_decide (load_action this = load_action other)
  && bool_decide (store_action this = store_action other).

Definition ColorAttachment_eq (this other : ColorAttachment) : bool :=
  Attachment_eq (color_base this) (color_base other)
  && Color4f_eq (clear_color this) (clear_color other).

Definition DepthAttachment_eq (this other : DepthAttachment) : bool :=
  Attachment_eq (depth_base this) (depth_base other)
  && Depth_eq (depth_clear_value this) (depth_clear_value other).

Definition StencilAttachment_eq (this other : StencilAttachment) : bool :=
  Attachment_eq (stencil_base this) (stencil_base other)
  && bool_decide (stencil_clear_value this = stencil_clear_value other).

(** [operator==] of two [std::vector]s: same size, equal element by element. *)
Fixpoint vector_eq {T} (eq : T → T → bool) (this other : list T) : bool :=
  match this, other with
  | [], [] => true
  | x :: this', y :: other' => eq x y && vector_eq eq this' other'
  | _, _ => false
  end.

(** [RenderPass::Settings::operator==] *)
Definition Settings_eq (this other : Settings) : bool :=
  vector_eq ColorAttachment_eq (color_attachments this) (color_attachments other)
  && DepthAttachment_eq (depth_attachment this) (depth_attachment other)
  && StencilAttachment_eq (stencil_attachment this) (stencil_attachment other)
  && bool_decide (shader_access_mask this = shader_access_mask other)
  && bool_decide (is_final_pass this = is_final_pass other).

Record RenderPassBase := mkRenderPass {
  m_settings : Settings;
  m_is_begun : bool;
  (** [Ptrs<TextureBase>], [Refs<TextureBase>] and [TextureBase*]: the
      memoized attachment textures, by address. *)
  m_non_frame_buffer_attachment_textures : list address;
  m_color_attachment_textures : list address;
  m_p_depth_attachment_texture : Ptr address;
  m_sp_begin_transition_barriers : Ptr Barriers;
  m_sp_end_transition_barriers : Ptr Barriers;
}.

Definition set_settings (s : Settings) (rp : RenderPassBase) :=
  {| m_settings := s; m_is_begun := m_is_begun rp;
     m_non_frame_buffer_attachment_textures :=
       m_non_frame_buffer_attachment_textures rp;
     m_color_attachment_textures := m_color_attachment_textures rp;
     m_p_depth_attachment_texture := m_p_depth_attachment_texture rp;
     m_sp_begin_transition_barriers := m_sp_begin_transition_barriers rp;
     m_sp_end_transition_barriers := m_sp_end_transition_barriers rp |}.

Definition set_is_begun (b : bool) (rp : RenderPassBase) :=
  {| m_settings := m_settings rp; m_is_begun := b;
     m_non_frame_buffer_attachment_textures :=
       m_non_frame_buffer_attachment_textures rp;
     m_color_attachment_textures := m_color_attachment_textures rp;
     m_p_depth_attachment_texture := m_p_depth_attachment_texture rp;
     m_sp_begin_transition_barriers := m_sp_begin_transition_barriers rp;
     m_sp_end_transition_barriers := m_sp_end_transition_barriers rp |}.

Definition set_non_frame_buffer_attachment_textures (ts : list address)
    (rp : RenderPassBase) :=
  {| m_settings := m_settings rp; m_is_begun := m_is_begun rp;
     m_non_frame_buffer_attachment_textures := ts;
     m_color_attachment_textures := m_color_attachment_textures rp;
     m_p_depth_attachment_texture := m_p_depth_attachment_texture rp;
     m_sp_begin_transition_barriers := m_sp_begin_transition_barriers rp;
     m_sp_end_transition_barriers := m_sp_end_transition_barriers rp |}.

Definition set_color_attachment_textures (ts : list address)
    (rp : RenderPassBase) :=
  {| m_settings := m_settings rp; m_is_begun := m_is_begun rp;
     m_non_frame_buffer_attachment_textures :=
       m_non_frame_buffer_attachment_textures rp;
     m_color_attachment_textures := ts;
     m_p_depth_attachment_texture := m_p_depth_attachment_texture rp;
     m_sp_begin_transition_barriers := m_sp_begin_transition_barriers rp;
     m_sp_end_transition_barriers := m_sp_end_transition_barriers rp |}.

Definition set_depth_attachment_texture (p : Ptr address) (rp : RenderPassBase) :=
  {| m_settings := m_settings rp; m_is_begun := m_is_begun rp;
     m_non_frame_buffer_attachment_textures :=
       m_non_frame_buffer_attachment_textures rp;
     m_color_attachment_textures := m_color_attachment_textures rp;
     m_p_depth_attachment_texture := p;
     m_sp_begin_transition_barriers := m_sp_begin_transition_barriers rp;
     m_sp_end_transition_barriers := m_sp_end_transition_barriers rp |}.

Definition set_begin_transition_barriers (b : Ptr Barriers) (rp : RenderPassBase) :=
  {| m_settings := m_settings rp; m_is_begun := m_is_begun rp;
     m_non_frame_buffer_attachment_textures :=
       m_non_frame_buffer_attachment_textures rp;
     m_color_attachment_textures := m_color_attachment_textures rp;
     m_p_depth_attachment_texture := m_p_depth_attachment_texture rp;
     m_sp_begin_transition_barriers := b;
     m_sp_end_transition_barriers := m_sp_end_transition_barriers rp |}.

Definition set_end_transition_barriers (b : Ptr Barriers) (rp : RenderPassBase) :=
  {| m_settings := m_settings rp; m_is_begun := m_is_begun rp;
     m_non_frame_buffer_attachment_textures :=
       m_non_frame_buffer_attachment_textures rp;
     m_color_attachment_textures := m_color_attachment_textures rp;
     m_p_depth_attachment_texture := m_p_depth_attachment_texture rp;
     m_sp_begin_transition_barriers := m_sp_begin_transition_barriers rp;
     m_sp_end_transition_barriers := b |}.

(** *** The memoized attachment textures: calls on the pass alone *)

(** The loop body of [GetColorAttachmentTextures]. *)
Definition push_color_texture (color_attach : ColorAttachment)
    : M RenderPassBase unit :=
  match sp_texture (color_base color_attach) with
  | None => throw invalid_argument
  | Some texture =>
      modify (λ rp, set_color_attachment_textures
                      (m_color_attachment_textures rp ++ [texture]) rp)
  end.

Definition GetColorAttachmentTextures : M RenderPassBase (list address) :=
  rp <- get ;;
  if negb (bool_decide (m_color_attachment_textures rp = []))
  then ret (m_color_attachment_textures rp)
  else
    for_each (color_attachments (m_settings rp)) push_color_texture ;;
    rp <- get ;;
    ret (m_color_attachment_textures rp).

Definition GetDepthAttachmentTexture : M RenderPassBase (Ptr address) :=
  rp <- get ;;
  when (bool_decide (m_p_depth_attachment_texture rp = None)
        && bool_decide (sp_texture (depth_base (depth_attachment (m_settings rp)))
                        ≠ None))
    (modify (set_depth_attachment_texture
               (sp_texture (depth_base (depth_attachment (m_settings rp)))))) ;;
  rp <- get ;;
  ret (m_p_depth_attachment_texture rp).


(** The colour attachment has a texture. *)
Definition has_texture (color_attach : ColorAttachment) : Prop :=
  is_Some (sp_texture (color_base color_attach)).

(** The textures of the given colour attachments that have one. *)
Definition attachment_textures (attachments : list ColorAttachment) : list address :=
  omap (λ c, sp_texture (color_base c)) attachments.

(** *** Calls that reach the textures and a command list

    What such a call works on: the pass, the textures in memory it refers to
    and the command list it is given. *)
Record World := mkWorld {
  pass : RenderPassBase;
  textures : Textures;
  render_command_list : RenderCommandListBase;
}.

Definition set_pass (rp : RenderPassBase) (w : World) :=
  {| pass := rp; textures := textures w;
     render_command_list := render_command_list w |}.
Definition set_textures (ts : Textures) (w : World) :=
  {| pass := pass w; textures := ts;
     render_command_list := render_command_list w |}.
Definition set_render_command_list (cl : RenderCommandListBase) (w : World) :=
  {| pass := pass w; textures := textures w; render_command_list := cl |}.

(** A call on the pass alone, made in the world. *)
Definition on_pass {R} (m : M RenderPassBase R) : M World R :=
  λ w, match m (pass w) with
       | Return r rp => Return r (set_pass rp w)
       | Throw e rp => Throw e (set_pass rp w)
       end.

(** [texture.SetState(state, barriers)] on the texture at an address;
    [barriers] is passed by reference: it goes in and comes out. *)
Definition SetTextureState (state : State) (texture : address)
    (barriers : Ptr Barriers) : M World (bool * Ptr Barriers) :=
  w <- get ;;
  let '(changed, barriers', texture') :=
    SetState state barriers texture (textures w texture) in
  put (set_textures (write_texture texture texture' (textures w)) w) ;;
  ret (changed, barriers').

(** [for (ref : refs) changed |= ref.SetState(state, barriers)] *)
Fixpoint SetTextureStates (state : State) (refs : list address)
    (changed : bool) (barriers : Ptr Barriers) : M World (bool * Ptr Barriers) :=
  match refs with
  | [] => ret (changed, barriers)
  | ref :: rest =>
      '(changed', barriers') <- SetTextureState state ref barriers ;;
      SetTextureStates state rest (changed || changed') barriers'
  end.

(** The loop of [InitAttachmentStates]; the barriers are its local
    [sp_transition_barriers]. *)
Fixpoint InitAttachmentStates_loop (color_textures : list address)
    (sp_transition_barriers : Ptr Barriers) : M World unit :=
  match color_textures with
  | [] => ret tt
  | color_texture_ref :: rest =>
      w <- get ;;
      if bool_decide (GetState (textures w color_texture_ref) = Common)
      then
        '(_, sp_transition_barriers') <-
          SetTextureState Present color_texture_ref sp_transition_barriers ;;
        InitAttachmentStates_loop rest sp_transition_barriers'
      else InitAttachmentStates_loop rest sp_transition_barriers
  end.

Definition InitAttachmentStates : M World unit :=
  let sp_transition_barriers : Ptr Barriers := None in
  color_textures <- on_pass GetColorAttachmentTextures ;;
  InitAttachmentStates_loop color_textures sp_transition_barriers.

(** [SetAttachmentStates]; [sp_transition_barriers] is passed by reference:
    it goes in and comes out, for the caller to store in the member it
    passed. *)
Definition SetAttachmentStates (color_state depth_state : option State)
    (sp_transition_barriers : Ptr Barriers) : M World (Ptr Barriers) :=
  let attachment_states_changed := false in
  '(attachment_states_changed, sp_transition_barriers) <-
    match color_state with
    | Some color_state =>
        color_textures <- on_pass GetColorAttachmentTextures ;;
        SetTextureStates color_state color_textures
          attachment_states_changed sp_transition_barriers
    | None => ret (attachment_states_changed, sp_transition_barriers)
    end ;;
  '(attachment_states_changed, sp_transition_barriers) <-
    match depth_state with
    | Some depth_state =>
        p_depth_texture <- on_pass GetDepthAttachmentTexture ;;
        match p_depth_texture with
        | Some depth_texture =>
            SetTextureStates depth_state [depth_texture]
              attachment_states_changed sp_transition_barriers
        | None => ret (attachment_states_changed, sp_transition_barriers)
        end
    | None => ret (attachment_states_changed, sp_transition_barriers)
    end ;;
  match sp_transition_barriers with
  | Some transition_barriers =>
      when attachment_states_changed
        (modify (λ w, set_render_command_list
                        (SetResourceBarriers transition_barriers
                           (render_command_list w)) w))
  | None => ret tt
  end ;;
  ret sp_transition_barriers.

(** The constructor: the member initialisers, then [InitAttachmentStates]. *)
Definition initial (settings : Settings) : RenderPassBase :=
  {| m_settings := settings; m_is_begun := false;
     m_non_frame_buffer_attachment_textures := [];
     m_color_attachment_textures := [];
     m_p_depth_attachment_texture := None;
     m_sp_begin_transition_barriers := None;
     m_sp_end_transition_barriers := None |}.

Definition new (settings : Settings) (ts : Textures)
    (cl : RenderCommandListBase) : outcome World unit :=
  InitAttachmentStates
    {| pass := initial settings; textures := ts; render_command_list := cl |}.

Definition Update (settings : Settings) : M World bool :=
  w <- get ;;
  if Settings_eq (m_settings (pass w)) settings then ret false
  else
    on_pass
      (modify (set_settings settings) ;;
       modify (set_non_frame_buffer_attachment_textures []) ;;
       modify (set_color_attachment_textures []) ;;
       modify (set_depth_attachment_texture None) ;;
       modify (set_begin_transition_barriers None) ;;
       modify (set_end_transition_barriers None)) ;;
    InitAttachmentStates ;;
    ret true.

Definition Begin : M World unit :=
  w <- get ;;
  if m_is_begun (pass w) then throw logic_error
  else
    barriers <- SetAttachmentStates (Some RenderTarget) (Some DepthWrite)
                  (m_sp_begin_transition_barriers (pass w)) ;;
    on_pass (modify (set_begin_transition_barriers barriers)) ;;
    on_pass (modify (set_is_begun true)).

Definition End : M World unit :=
  w <- get ;;
  if negb (m_is_begun (pass w)) then throw logic_error
  else
    when (is_final_pass (m_settings (pass w)))
      (barriers <- SetAttachmentStates (Some Present) None
                     (m_sp_end_transition_barriers (pass w)) ;;
       on_pass (modify (set_end_transition_barriers barriers))) ;;
    on_pass (modify (set_is_begun false)).

Definition GetNonFrameBufferAttachmentTextures : M World (list address) :=
  w <- get ;;
  if negb (bool_decide (m_non_frame_buffer_attachment_textures (pass w) = []))
  then ret (m_non_frame_buffer_attachment_textures (pass w))
  else
    let push_back (texture : address) :=
      on_pass (modify (λ rp, set_non_frame_buffer_attachment_textures
                               (m_non_frame_buffer_attachment_textures rp
                                ++ [texture]) rp)) in
    let settings := m_settings (pass w) in
    for_each (color_attachments settings) (λ color_attach,
      match sp_texture (color_base color_attach) with
      | None => throw invalid_argument
      | Some sp_color_attachment =>
          w <- get ;;
          if bool_decide (texture_type (textures w sp_color_attachment)
                          = FrameBuffer)
          then ret tt
          else push_back sp_color_attachment
      end) ;;
    match sp_texture (depth_base (depth_attachment settings)) with
    | Some depth_texture => push_back depth_texture
    | None => ret tt
    end ;;
    match sp_texture (stencil_base (stencil_attachment settings)) with
    | Some stencil_texture => push_back stencil_texture
    | None => ret tt
    end ;;
    w <- get ;;
    ret (m_non_frame_buffer_attachment_textures (pass w)).

(** The caches agree with the settings: each holds nothing or what its
    getter computes from the settings.  The constructor and [Update] leave
    them so. *)
Definition caches_coherent (rp : RenderPassBase) : Prop :=
  (m_color_attachment_textures rp = []
   ∨ m_color_attachment_textures rp
     = attachment_textures (color_attachments (m_settings rp)))
  ∧ (m_p_depth_attachment_texture rp = None
     ∨ m_p_depth_attachment_texture rp
       = sp_texture (depth_base (depth_attachment (m_settings rp)))).

(** What [InitAttachmentStates] does to the textures: the colour attachment
    textures found in [Common] are in [Present] afterwards, nothing else
    changes. *)
Definition initialised (refs : list address) (before after : Textures) : Prop :=
  ∀ a, texture_type (after a) = texture_type (before a)
       ∧ GetState (after a)
         = if bool_decide (a ∈ refs ∧ GetState (before a) = Common)
           then Present else GetState (before a).

(** The pass as [Update] leaves it before [InitAttachmentStates]: the new
    settings, every cache dropped. *)
Definition invalidated (settings : Settings) (rp : RenderPassBase)
    : RenderPassBase :=
  {| m_settings := settings; m_is_begun := m_is_begun rp;
     m_non_frame_buffer_attachment_textures := [];
     m_color_attachment_textures := [];
     m_p_depth_attachment_texture := None;
     m_sp_begin_transition_barriers := None;
     m_sp_end_transition_barriers := None |}.

(** What a loop of [SetState] calls does to the textures: those in [refs]
    are in [state] afterwards, nothing else changes. *)
Definition states_set (state : State) (refs : list address)
    (before after : Textures) : Prop :=
  ∀ a, texture_type (after a) = texture_type (before a)
       ∧ GetState (after a)
         = if bool_decide (a ∈ refs) then state else GetState (before a).

(** The barriers such a loop adds: transitions to [state] of textures in
    [refs] from the state they were in, which was another one; none when
    every texture in [refs] was in [state] already. *)
Definition transitions_to (state : State) (refs : list address)
    (before : Textures) (added : Barriers) : Prop :=
  Forall (λ barrier,
            barrier_type barrier = Transition
            ∧ resource barrier ∈ refs
            ∧ state_before barrier = GetState (before (resource barrier))
            ∧ state_after barrier = state
            ∧ state_before barrier ≠ state_after barrier) added
  ∧ (added = [] ↔ ∀ a, a ∈ refs → GetState (before a) = state).

(** The begun flag and the settings of the pass are the same in two worlds. *)
Definition same_pass_status (w w' : World) : Prop :=
  m_is_begun (pass w') = m_is_begun (pass w)
  ∧ m_settings (pass w') = m_settings (pass w).

(** A call started in [w] keeps the begun flag and the settings, and throws
    nothing but an invalid argument error. *)
Definition keeps_pass_status {A} (w : World) (o : outcome World A) : Prop :=
  match o with
  | Return _ w' => same_pass_status w w'
  | Throw e w' => e = invalid_argument ∧ same_pass_status w w'
  end.

(** What [GetNonFrameBufferAttachmentTextures] is to collect from the
    settings: the colour attachment textures that are not frame buffers,
    then the depth and the stencil attachment texture, if any. *)
Definition non_frame_buffer_textures (colors : list ColorAttachment)
    (depth stencil : Ptr address) (ts : Textures) : list address :=
  List.filter (λ a, negb (bool_decide (texture_type (ts a) = FrameBuffer)))
              (attachment_textures colors)
  ++ option_list depth ++ option_list stencil.


(** *** Scenarios *)

(** A texture in the [Common] state, as created. *)
Definition common_texture : TextureBase :=
  {| m_state := Common; texture_type := FrameBuffer |}.

Definition attachment_of (texture : Ptr address) : Attachment :=
  {| sp_texture := texture; level := 0; slice := 0; depth_plane := 0;
     load_action := Clear; store_action := Store |}.

(** Settings with the given colour attachment textures (Clear/Store), no
    depth and no stencil texture. *)
Definition color_only_settings (clear : Color4f) (depth : Depth)
    (color_textures : list (Ptr address)) (final : bool) : Settings :=
  {| color_attachments :=
       map (λ t, {| color_base := attachment_of t; clear_color := clear |})
           color_textures;
     depth_attachment :=
       {| depth_base := attachment_of None; depth_clear_value := depth |};
     stencil_attachment :=
       {| stencil_base := attachment_of None; stencil_clear_value := 0 |};
     shader_access_mask := 0;
     is_final_pass := final |}.

End RenderPass.
Arguments ColorAttachment : clear implicits.
Arguments DepthAttachment : clear implicits.
Arguments Settings : clear implicits.
Arguments RenderPassBase : clear implicits.
Arguments World : clear implicits.

(** Scenarios with [unit] for the colour and depth clear values: every
    texture in memory in [Common], a command list given nothing so far. *)
Definition unit_eq (_ _ : unit) : bool := true.

Definition all_common : Textures := λ _, common_texture.

Definition no_commands : RenderCommandListBase := {| resource_barriers := [] |}.

(** The world a pass constructed from [settings] is in. *)
Definition constructed (settings : Settings unit unit) : World unit unit :=
  object_after (new settings all_common no_commands).



End RenderPassBase.

(** * Properties *)

Module CommandListFacts.
Import CommandListBase.

Ltac step_call :=
  repeat first
    [ progress cbn [invoke object_after returned thrown] in *
    | progress unfold Reset, SetProgramBindings, Commit, Execute, Complete,
        PopDebugGroup, PushDebugGroup, PushOpenDebugGroup, ClearOpenDebugGroups,
        ResetCommandState, when, bind, get, put, modify, throw, ret, stack_empty in *
    | progress cbn [m_state m_committed_frame_index m_open_debug_groups
        m_sp_command_state m_type m_debug_group_names set_state
        set_committed_frame_index set_open_debug_groups set_command_state
        set_debug_group_names negb andb orb] in *
    | case_bool_decide ].

Lemma Commit_Pending queue cl :
  m_state cl = Pending →
  Commit queue cl =
    Return tt (set_open_debug_groups (tail (m_open_debug_groups cl))
                 (set_state Committed
                    (set_committed_frame_index (GetCurrentFrameIndex queue) cl))).
Proof.
  intros HP. destruct cl as [ty cs st fi [|top rest] ns]; simpl in HP; subst;
    reflexivity.
Qed.

Lemma Commit_not_Pending queue cl :
  m_state cl ≠ Pending → Commit queue cl = Throw logic_error cl.
Proof. intros HP. step_call; try done. Qed.

Lemma Execute_spec f cl :
  Execute f cl =
    if bool_decide (m_state cl = Committed ∧ m_committed_frame_index cl = f)
    then Return tt (set_state Executing cl) else Throw logic_error cl.
Proof. step_call; try done; by intuition. Qed.

Lemma Complete_spec f cl :
  Complete f cl =
    if bool_decide (m_state cl = Executing ∧ m_committed_frame_index cl = f)
    then Return tt (set_state Pending cl) else Throw logic_error cl.
Proof. step_call; try done; by intuition. Qed.

Lemma invoke_keeps_busy c cl :
  is_complete_call c = false → m_state cl ≠ Pending →
  m_state (object_after (invoke c cl)) ≠ Pending.
Proof.
  intros Hc HP. destruct c; try discriminate Hc; step_call; try done.
Qed.

Lemma run_keeps_busy calls : ∀ cl,
  forallb (λ c, negb (is_complete_call c)) calls = true →
  m_state cl ≠ Pending → m_state (run calls cl) ≠ Pending.
Proof.
  induction calls as [|c calls IH]; intros cl Hall HP; [done|].
  simpl in Hall. apply andb_prop in Hall as [Hc Hall].
  simpl. apply IH; [done|]. apply invoke_keeps_busy; [|done].
  by destruct (is_complete_call c).
Qed.

(** C1. [Commit] returns exactly in [Pending], [Execute] only in
    [Committed] and [Complete] only in [Executing]; in any other state each
    throws a logic error, so [Execute] and [Complete] throw in [Pending];
    after a [Commit] that returned, a further [Commit] throws whatever calls
    come in between, as long as no [Complete] is among them; and every call
    of the three that throws, throws a logic error and leaves the whole
    list, with its state, committed frame index and debug-group stack, as it
    was. *)
Theorem state_machine_legality (queue : CommandQueueBase) (f : uint32)
    (cl : CommandListBase) :
  (returned (Commit queue cl) = Some tt ↔ m_state cl = Pending)
  ∧ (returned (Execute f cl) = Some tt → m_state cl = Committed)
  ∧ (returned (Complete f cl) = Some tt → m_state cl = Executing)
  ∧ (m_state cl ≠ Pending → Commit queue cl = Throw logic_error cl)
  ∧ (m_state cl ≠ Committed → Execute f cl = Throw logic_error cl)
  ∧ (m_state cl ≠ Executing → Complete f cl = Throw logic_error cl)
  ∧ (m_state cl = Pending →
       Execute f cl = Throw logic_error cl ∧ Complete f cl = Throw logic_error cl)
  ∧ (∀ cl', Commit queue cl = Return tt cl' →
       m_state cl' = Committed
       ∧ ∀ calls queue',
           forallb (λ c, negb (is_complete_call c)) calls = true →
           Commit queue' (run calls cl') = Throw logic_error (run calls cl'))
  ∧ (∀ e cl',
       Commit queue cl = Throw e cl' ∨ Execute f cl = Throw e cl'
       ∨ Complete f cl = Throw e cl' →
       e = logic_error ∧ cl' = cl).
Proof.
  assert (HC : ∀ q c c', Commit q c = Return tt c' → m_state c = Pending
                         ∧ m_state c' = Committed).
  { intros q c c' H. destruct (decide (m_state c = Pending)) as [HP|HP].
    - rewrite (Commit_Pending _ _ HP) in H. by inversion H.
    - by rewrite (Commit_not_Pending _ _ HP) in H. }
  split_and!.
  - split.
    + intros Hr. destruct (Commit queue cl) as [[] cl'|] eqn:E; [|done].
      by apply HC in E as [? _].
    + intros HP. by rewrite (Commit_Pending _ _ HP).
  - rewrite Execute_spec. case_bool_decide as H; [by destruct H|done].
  - rewrite Complete_spec. case_bool_decide as H; [by destruct H|done].
  - apply Commit_not_Pending.
  - intros HS. rewrite Execute_spec. case_bool_decide as H; [by destruct H|done].
  - intros HS. rewrite Complete_spec. case_bool_decide as H; [by destruct H|done].
  - intros HP. rewrite Execute_spec, Complete_spec.
    split; case_bool_decide as H; try done; destruct H; congruence.
  - intros cl' H. apply HC in H as [_ H]. split; [done|].
    intros calls queue' Hall. apply Commit_not_Pending, run_keeps_busy; [done|].
    congruence.
  - intros e cl' [H|[H|H]].
    + destruct (decide (m_state cl = Pending)) as [HP|HP].
      * by rewrite (Commit_Pending _ _ HP) in H.
      * rewrite (Commit_not_Pending _ _ HP) in H. by inversion H.
    + rewrite Execute_spec in H. case_bool_decide; by inversion H.
    + rewrite Complete_spec in H. case_bool_decide; by inversion H.
Qed.

Lemma invoke_tracks c cl recorded :
  tracks recorded cl →
  tracks (record_commit c (invoke c cl) recorded) (object_after (invoke c cl)).
Proof.
  intros [HN HS].
  destruct c as [g|n| |pb|q|f|f| |]; cbn [invoke record_commit].
  - unfold tracks. destruct (Reset g cl) eqn:E; revert E; step_call;
      intros E; inversion E; subst; cbn; auto.
  - done.
  - unfold tracks. step_call; auto.
  - unfold tracks. step_call; auto.
  - destruct (decide (m_state cl = Pending)) as [HP|HP].
    + rewrite (Commit_Pending _ _ HP). split; [done|]. cbn. congruence.
    + rewrite (Commit_not_Pending _ _ HP). done.
  - rewrite Execute_spec. case_bool_decide as H; [|done].
    destruct H as [HC _]. split; cbn; [|done].
    intros ->. specialize (HN eq_refl). congruence.
  - rewrite Complete_spec. case_bool_decide as H; [|done]. split; cbn; auto.
  - done.
  - done.
Qed.

Lemma run_tracks calls : ∀ cl recorded,
  tracks recorded cl → tracks (last_commit calls cl recorded) (run calls cl).
Proof.
  induction calls as [|c calls IH]; intros cl recorded HT; [done|].
  cbn [last_commit run]. apply IH, invoke_tracks, HT.
Qed.

(** C2. [Execute(f)] and [Complete(f)] return exactly when the list is in
    the state they need and [f] is the frame index recorded by the most
    recent [Commit] that returned, which is the list's committed frame
    index; with any other frame index they throw a logic error and leave the
    list as it was. *)
Theorem frame_index_coherence (type : N) (calls : list Call) (f : uint32) :
  let cl := run calls (new type) in
  let recorded := last_commit calls (new type) None in
  (∀ x, recorded = Some x → m_committed_frame_index cl = x)
  ∧ Execute f cl =
      (if bool_decide (m_state cl = Committed ∧ recorded = Some f)
       then Return tt (set_state Executing cl) else Throw logic_error cl)
  ∧ Complete f cl =
      (if bool_decide (m_state cl = Executing ∧ recorded = Some f)
       then Return tt (set_state Pending cl) else Throw logic_error cl)
  ∧ (m_committed_frame_index cl ≠ f →
       Execute f cl = Throw logic_error cl
       ∧ Complete f cl = Throw logic_error cl).
Proof.
  intros cl recorded.
  assert (HT : tracks recorded cl) by (by apply run_tracks).
  destruct HT as [HN HS].
  assert (HR : ∀ st, st ≠ Pending →
            (m_state cl = st ∧ m_committed_frame_index cl = f)
            ↔ (m_state cl = st ∧ recorded = Some f)).
  { intros st Hst. split; intros [H1 H2]; (split; [done|]).
    - destruct recorded as [x|]; [|rewrite HN in H1; congruence].
      by rewrite <- (HS x eq_refl), H2.
    - by apply HS. }
  split_and!.
  - done.
  - rewrite Execute_spec.
    assert (HC : Committed ≠ Pending) by done.
    by rewrite (bool_decide_ext _ _ (HR Committed HC)).
  - rewrite Complete_spec.
    assert (HE : Executing ≠ Pending) by done.
    by rewrite (bool_decide_ext _ _ (HR Executing HE)).
  - intros Hne. rewrite Execute_spec, Complete_spec.
    split; case_bool_decide as H; try done; by destruct H.
Qed.

Lemma Reset_Pending g cl :
  m_state cl = Pending →
  ∃ names,
    Reset g cl =
      Return tt (set_debug_group_names names
                   (set_open_debug_groups
                      (groups_after_Reset g (m_open_debug_groups cl)) cl)).
Proof.
  intros HP. destruct cl as [ty cs st fi gs ns]. cbn in HP. subst st.
  destruct gs as [|top rest]; unfold groups_after_Reset; step_call;
    try done; cbn in *; try congruence; eexists; reflexivity.
Qed.



(** C4 (amended). In [Pending], [Commit] records the queue's current frame
    index as the committed frame index, moves the list to [Committed] and
    closes the top open debug group, the one a [Reset] opened: one pop, so
    that no group stays open when at most one was open. *)
Theorem Commit_records_frame_and_pops_top_group (queue : CommandQueueBase)
    (cl : CommandListBase) :
  m_state cl = Pending →
  ∃ cl', Commit queue cl = Return tt cl'
    ∧ m_committed_frame_index cl' = GetCurrentFrameBufferIndex queue
    ∧ m_state cl' = Committed
    ∧ m_open_debug_groups cl' = tail (m_open_debug_groups cl)
    ∧ ((length (m_open_debug_groups cl) ≤ 1)%nat → m_open_debug_groups cl' = [])
    ∧ m_sp_command_state cl' = m_sp_command_state cl
    ∧ m_debug_group_names cl' = m_debug_group_names cl.
Proof.
  intros HP. rewrite (Commit_Pending _ _ HP). eexists. split; [reflexivity|].
  cbn. split_and!; try done.
  destruct (m_open_debug_groups cl) as [|? [|? ?]]; cbn; [done|done|lia].
Qed.

Lemma Commit_records_frame_and_pops_top_group_witness :
  ∃ cl', Commit (mkCommandQueue 2) (run [CallReset "Frame"] (new 0)) = Return tt cl'
    ∧ m_committed_frame_index cl' = 2
    ∧ m_state cl' = Committed
    ∧ m_open_debug_groups cl' = tail ["Frame"%string]
    ∧ ((length ["Frame"%string] ≤ 1)%nat → m_open_debug_groups cl' = [])
    ∧ m_sp_command_state cl' = CommandState_Create 0
    ∧ m_debug_group_names cl' = {[ "Frame"%string ]} ∪ ∅.
Proof.
  exact (Commit_records_frame_and_pops_top_group (mkCommandQueue 2)
           (run [CallReset "Frame"] (new 0)) eq_refl).
Defined.

(** C4, as stated, fails: with two groups open, [Commit] returns with the
    outer one still open. *)
Lemma Commit_leaves_outer_debug_group_open :
  let cl := run [CallPushDebugGroup "A"; CallPushDebugGroup "B"] (new 0) in
  let o := Commit (mkCommandQueue 1) cl in
  m_state cl = Pending
  ∧ m_open_debug_groups cl = ["B"; "A"]%string
  ∧ returned o = Some tt
  ∧ m_state (object_after o) = Committed
  ∧ m_open_debug_groups (object_after o) = ["A"%string]
  ∧ m_open_debug_groups (object_after o) ≠ [].
Proof. cbn. split_and!; done. Qed.


Lemma run_app calls1 : ∀ calls2 cl,
  run (calls1 ++ calls2) cl = run calls2 (run calls1 cl).
Proof. induction calls1 as [|c calls1 IH]; intros; [done|]. cbn. apply IH. Qed.

Lemma all_return_app calls1 : ∀ calls2 cl,
  all_return (calls1 ++ calls2) cl
  = all_return calls1 cl && all_return calls2 (run calls1 cl).
Proof.
  induction calls1 as [|c calls1 IH]; intros calls2 cl; [done|].
  cbn. destruct (invoke c cl) as [[] cl'|e cl']; cbn; [apply IH|done].
Qed.

Lemma PushDebugGroup_returns n cl :
  ∃ cl', PushDebugGroup n cl = Return tt cl'
    ∧ m_open_debug_groups cl' = n :: m_open_debug_groups cl
    ∧ m_debug_group_names cl' = {[ n ]} ∪ m_debug_group_names cl
    ∧ same_recording cl cl'.
Proof. eexists. split; [reflexivity|]. by cbn. Qed.

Lemma PopDebugGroup_returns cl :
  m_open_debug_groups cl ≠ [] →
  ∃ cl', PopDebugGroup cl = Return tt cl'
    ∧ m_open_debug_groups cl' = tail (m_open_debug_groups cl)
    ∧ m_debug_group_names cl' = m_debug_group_names cl
    ∧ same_recording cl cl'.
Proof.
  intros HE. unfold PopDebugGroup, bind, get, stack_empty.
  rewrite (bool_decide_eq_false_2 _ HE). eexists. split; [reflexivity|].
  by cbn.
Qed.

Lemma same_recording_trans cl1 cl2 cl3 :
  same_recording cl1 cl2 → same_recording cl2 cl3 → same_recording cl1 cl3.
Proof.
  intros (?&?&?&?) (?&?&?&?). unfold same_recording. split_and!; congruence.
Qed.

Lemma pushes_spec names : ∀ cl,
  all_return (pushes names) cl = true
  ∧ m_open_debug_groups (run (pushes names) cl)
    = rev names ++ m_open_debug_groups cl
  ∧ same_recording cl (run (pushes names) cl).
Proof.
  induction names as [|n names IH]; intros cl; [done|].
  destruct (PushDebugGroup_returns n cl) as (cl1 & Hc & Hs1 & _ & Hk1).
  cbn [pushes map all_return run invoke]. rewrite Hc. cbn [object_after].
  destruct (IH cl1) as (Hr & Hs & Hk). fold (pushes names).
  split_and!; [exact Hr| |exact (same_recording_trans _ _ _ Hk1 Hk)].
  rewrite Hs, Hs1. cbn. by rewrite <- app_assoc.
Qed.

Lemma pops_spec n : ∀ cl,
  (n ≤ length (m_open_debug_groups cl))%nat →
  all_return (pops n) cl = true
  ∧ m_open_debug_groups (run (pops n) cl) = drop n (m_open_debug_groups cl)
  ∧ same_recording cl (run (pops n) cl).
Proof.
  induction n as [|n IH]; intros cl Hn; [done|].
  destruct (PopDebugGroup_returns cl) as (cl1 & Hc & Hs1 & _ & Hk1).
  { intros HE. rewrite HE in Hn. cbn in Hn. lia. }
  cbn [pops replicate all_return run invoke]. rewrite Hc. cbn [object_after].
  fold (pops n). destruct (IH cl1) as (Hr & Hs & Hk).
  { rewrite Hs1. destruct (m_open_debug_groups cl); cbn in *; lia. }
  split_and!; [exact Hr| |exact (same_recording_trans _ _ _ Hk1 Hk)].
  rewrite Hs, Hs1. destruct (m_open_debug_groups cl); [|done].
  cbn in Hn. lia.
Qed.

Lemma PopDebugGroup_empty cl :
  m_open_debug_groups cl = [] → PopDebugGroup cl = Throw underflow_error cl.
Proof. intros HE. step_call; done. Qed.

(** C5. On a list with no open debug group, pushing A and B and popping
    twice returns to the empty stack, and a third pop throws an underflow
    error; the same holds for any names pushed and as many pops, the rest of
    the list being left as it was; and a pop on an empty stack always throws
    an underflow error, leaving the list unchanged. *)
Theorem debug_group_push_pop_balance (names : list string)
    (cl : CommandListBase) :
  m_open_debug_groups cl = [] →
  let a_b := [CallPushDebugGroup "A"; CallPushDebugGroup "B";
              CallPopDebugGroup; CallPopDebugGroup] in
  let balanced := pushes names ++ pops (length names) in
  (all_return a_b cl = true
   ∧ m_open_debug_groups (run a_b cl) = []
   ∧ PopDebugGroup (run a_b cl) = Throw underflow_error (run a_b cl))
  ∧ (all_return balanced cl = true
     ∧ m_open_debug_groups (run balanced cl) = []
     ∧ same_recording cl (run balanced cl)
     ∧ PopDebugGroup (run balanced cl)
       = Throw underflow_error (run balanced cl))
  ∧ PopDebugGroup cl = Throw underflow_error cl.
Proof.
  intros HE a_b balanced.
  assert (HB : ∀ ns, all_return (pushes ns ++ pops (length ns)) cl = true
     ∧ m_open_debug_groups (run (pushes ns ++ pops (length ns)) cl) = []
     ∧ same_recording cl (run (pushes ns ++ pops (length ns)) cl)).
  { intros ns. destruct (pushes_spec ns cl) as (Hr & Hs & Hk).
    destruct (pops_spec (length ns) (run (pushes ns) cl)) as (Hr' & Hs' & Hk').
    { rewrite Hs, length_app, length_rev. lia. }
    rewrite all_return_app, run_app, Hr, Hr', Hs', Hs, HE, app_nil_r.
    split_and!; [done| |].
    - apply drop_ge. by rewrite length_rev.
    - destruct Hk as (?&?&?&?), Hk' as (?&?&?&?).
      unfold same_recording. split_and!; congruence. }
  split_and!.
  - apply (HB ["A"; "B"]%string).
  - apply (HB ["A"; "B"]%string).
  - apply PopDebugGroup_empty, (HB ["A"; "B"]%string).
  - apply HB.
  - apply HB.
  - apply HB.
  - apply PopDebugGroup_empty, HB.
  - by apply PopDebugGroup_empty.
Qed.

Lemma debug_group_push_pop_balance_witness :
  let cl := new 0 in
  let a_b := [CallPushDebugGroup "A"; CallPushDebugGroup "B";
              CallPopDebugGroup; CallPopDebugGroup] in
  let balanced := pushes ["X"; "Y"; "Z"]%string ++ pops 3 in
  (all_return a_b cl = true
   ∧ m_open_debug_groups (run a_b cl) = []
   ∧ PopDebugGroup (run a_b cl) = Throw underflow_error (run a_b cl))
  ∧ (all_return balanced cl = true
     ∧ m_open_debug_groups (run balanced cl) = []
     ∧ same_recording cl (run balanced cl)
     ∧ PopDebugGroup (run balanced cl)
       = Throw underflow_error (run balanced cl))
  ∧ PopDebugGroup cl = Throw underflow_error cl.
Proof.
  exact (debug_group_push_pop_balance ["X"; "Y"; "Z"]%string (new 0) eq_refl).
Defined.


(** ** Further properties of the command list *)

(** X1. From [Pending], [Commit], then [Execute] and [Complete] with the
    frame index the queue had at [Commit], all return and bring the list
    back to [Pending]: one debug group popped, the recording state kept.
    [IsCommitted] and [IsExecuting] hold in between, [Reset] is rejected in
    between and legal again at the end. *)
Theorem commit_execute_complete_cycle (queue : CommandQueueBase)
    (debug_group : string) (cl : CommandListBase) :
  m_state cl = Pending →
  let f := GetCurrentFrameBufferIndex queue in
  ∃ cl1 cl2 cl3,
    Commit queue cl = Return tt cl1
    ∧ Execute f cl1 = Return tt cl2
    ∧ Complete f cl2 = Return tt cl3
    ∧ IsCommitted f cl1 = true
    ∧ IsExecuting f cl2 = true
    ∧ Reset debug_group cl1 = Throw logic_error cl1
    ∧ Reset debug_group cl2 = Throw logic_error cl2
    ∧ returned (Reset debug_group cl3) = Some tt
    ∧ m_state cl3 = Pending
    ∧ m_committed_frame_index cl3 = f
    ∧ m_open_debug_groups cl3 = tail (m_open_debug_groups cl)
    ∧ m_sp_command_state cl3 = m_sp_command_state cl
    ∧ m_debug_group_names cl3 = m_debug_group_names cl.
Proof.
  intros HP f. rewrite (Commit_Pending _ _ HP).
  eexists _, _, _. split; [reflexivity|].
  rewrite Execute_spec. rewrite bool_decide_eq_true_2 by done.
  split; [reflexivity|].
  rewrite Complete_spec. rewrite bool_decide_eq_true_2 by done.
  split; [reflexivity|].
  split_and!; try done.
  - unfold IsCommitted. cbn. by rewrite !bool_decide_eq_true_2.
  - unfold IsExecuting. cbn. by rewrite !bool_decide_eq_true_2.
  - edestruct Reset_Pending as [names ->]; done.
Qed.

Lemma commit_execute_complete_cycle_witness :
  let cl := run [CallReset "Frame"] (new 0) in
  ∃ cl1 cl2 cl3,
    Commit (mkCommandQueue 2) cl = Return tt cl1
    ∧ Execute 2 cl1 = Return tt cl2
    ∧ Complete 2 cl2 = Return tt cl3
    ∧ m_state cl3 = Pending
    ∧ m_open_debug_groups cl3 = [].
Proof.
  destruct (commit_execute_complete_cycle (mkCommandQueue 2) "Next"
              (run [CallReset "Frame"] (new 0)) eq_refl)
    as (cl1 & cl2 & cl3 & H1 & H2 & H3 & _ & _ & _ & _ & _ & H4 & _ & H5 & _).
  exists cl1, cl2, cl3. split_and!; [exact H1|exact H2|exact H3|exact H4|exact H5].
Defined.

(** X2. [IsCommitted(f)] holds exactly when [Execute(f)] would return, and
    [IsExecuting(f)] exactly when [Complete(f)] would; a list is executing on
    some frame exactly when it is executing on its committed frame, and it
    is never committed and executing at once. *)
Theorem IsCommitted_IsExecuting_agree (f g : uint32) (cl : CommandListBase) :
  (IsCommitted f cl = true ↔ returned (Execute f cl) = Some tt)
  ∧ (IsExecuting f cl = true ↔ returned (Complete f cl) = Some tt)
  ∧ (IsExecutingOnAnyFrame cl = true
     ↔ IsExecuting (m_committed_frame_index cl) cl = true)
  ∧ (IsExecuting f cl = true → IsExecutingOnAnyFrame cl = true)
  ∧ ¬ (IsCommitted f cl = true ∧ IsExecuting g cl = true).
Proof.
  unfold IsCommitted, IsExecuting, IsExecutingOnAnyFrame.
  rewrite Execute_spec, Complete_spec.
  destruct cl as [ty cs st fi gs ns]. cbn.
  destruct st; repeat case_bool_decide; cbn; split_and!;
    try split; try done; try (intros [? ?]; done); intuition congruence.
Qed.

Lemma invoke_keeps_command_state c cl :
  sets_command_state c = false →
  m_sp_command_state (object_after (invoke c cl)) = m_sp_command_state cl
  ∧ m_type (object_after (invoke c cl)) = m_type cl.
Proof.
  intros Hc. destruct c as [g|n| |pb|q|f|f| |]; try discriminate Hc;
    cbn [invoke].
  - destruct (decide (m_state cl = Pending)) as [HP|HP].
    + destruct (Reset_Pending g cl HP) as [names ->]. done.
    + step_call; done.
  - done.
  - step_call; done.
  - destruct (decide (m_state cl = Pending)) as [HP|HP].
    + by rewrite (Commit_Pending _ _ HP).
    + by rewrite (Commit_not_Pending _ _ HP).
  - rewrite Execute_spec. by case_bool_decide.
  - rewrite Complete_spec. by case_bool_decide.
  - done.
Qed.

(** X3. The program bindings recorded by [SetProgramBindings] stay current
    through every later call other than [SetProgramBindings] and
    [ResetCommandState], whether it returns or throws; outside [Pending],
    [SetProgramBindings] throws a logic error and records nothing. *)
Theorem program_bindings_stay_current (program_bindings : address)
    (calls : list Call) (cl : CommandListBase) :
  forallb (λ c, negb (sets_command_state c)) calls = true →
  m_sp_command_state (run calls cl) = m_sp_command_state cl
  ∧ (m_state cl = Pending →
       p_program_bindings
         (m_sp_command_state
            (run (CallSetProgramBindings program_bindings :: calls) cl))
       = Some program_bindings)
  ∧ (m_state cl ≠ Pending →
       SetProgramBindings program_bindings cl = Throw logic_error cl).
Proof.
  intros Hall.
  assert (Hkeep : ∀ cl0, m_sp_command_state (run calls cl0)
                         = m_sp_command_state cl0).
  { induction calls as [|c calls IH]; intros cl0; [done|].
    cbn in Hall. apply andb_prop in Hall as [Hc Hall].
    cbn [run]. rewrite (IH Hall).
    apply invoke_keeps_command_state. by destruct (sets_command_state c). }
  split_and!.
  - apply Hkeep.
  - intros HP. cbn [run invoke]. rewrite Hkeep. step_call; done.
  - intros HP. step_call; done.
Qed.

Lemma program_bindings_stay_current_witness :
  p_program_bindings
    (m_sp_command_state
       (run [CallSetProgramBindings 7%N; CallReset "Frame";
             CallCommit (mkCommandQueue 0); CallExecute 0; CallComplete 0]
          (new 0)))
  = Some 7%N.
Proof.
  exact (proj1 (proj2
    (program_bindings_stay_current 7%N
       [CallReset "Frame"; CallCommit (mkCommandQueue 0); CallExecute 0;
        CallComplete 0] (new 0) eq_refl)) eq_refl).
Defined.

Lemma Reset_Pending_names g cl :
  m_state cl = Pending →
  ∃ names,
    Reset g cl
    = Return tt (set_debug_group_names names
                   (set_open_debug_groups
                      (groups_after_Reset g (m_open_debug_groups cl)) cl))
    ∧ m_debug_group_names cl ⊆ names
    ∧ ∀ n, n ∈ groups_after_Reset g (m_open_debug_groups cl) →
           n ∈ m_open_debug_groups cl ∨ n ∈ names.
Proof.
  intros HP. destruct cl as [ty cs st fi gs ns]. cbn in HP. subst st.
  destruct gs as [|top rest]; unfold groups_after_Reset; step_call;
    try done; cbn in *; try congruence;
    (eexists; split; [reflexivity|]); cbn;
    (split; [first [done|apply union_subseteq_r]|]);
    intros n Hn; try (by left).
  - right. apply list_elem_of_singleton in Hn as ->.
    apply elem_of_union. left. by apply elem_of_singleton.
  - left. apply elem_of_cons. by right.
  - apply elem_of_cons in Hn as [->|Hn].
    + right. apply elem_of_union. left. by apply elem_of_singleton.
    + left. apply elem_of_cons. by right.
Qed.

Lemma invoke_names_grow c cl :
  m_debug_group_names cl ⊆ m_debug_group_names (object_after (invoke c cl))
  ∧ ((∀ n, n ∈ m_open_debug_groups cl → n ∈ m_debug_group_names cl) →
     ∀ n, n ∈ m_open_debug_groups (object_after (invoke c cl)) →
          n ∈ m_debug_group_names (object_after (invoke c cl))).
Proof.
  assert (Htail : ∀ (gs : list string) (ns : gset string),
            (∀ n, n ∈ gs → n ∈ ns) → ∀ n, n ∈ tail gs → n ∈ ns).
  { intros [|g gs] ns H n Hn; [by apply elem_of_nil in Hn|].
    apply H, elem_of_cons. by right. }
  destruct c as [g|n0| |pb|q|f|f| |]; cbn [invoke].
  - destruct (decide (m_state cl = Pending)) as [HP|HP].
    + destruct (Reset_Pending_names g cl HP) as (names & -> & Hsub & Hin).
      cbn. split; [done|]. intros Hpool n Hn.
      destruct (Hin n Hn) as [Hold|Hnew]; [|done]. by apply Hsub, Hpool.
    + assert (Hr : Reset g cl = Throw logic_error cl) by (step_call; done).
      by rewrite Hr.
  - cbn. split; [apply union_subseteq_r|]. intros Hin n Hn.
    apply elem_of_union. apply elem_of_cons in Hn as [->|Hn].
    + left. by apply elem_of_singleton.
    + right. by apply Hin.
  - destruct (decide (m_open_debug_groups cl = [])) as [HE|HE].
    + by rewrite (PopDebugGroup_empty _ HE).
    + destruct (PopDebugGroup_returns cl HE) as (cl1 & -> & Hs & Hn & _).
      cbn. rewrite Hn, Hs. split; [done|]. intros Hin. by apply Htail.
  - assert (Hk : m_debug_group_names (object_after (SetProgramBindings pb cl))
                 = m_debug_group_names cl
                 ∧ m_open_debug_groups (object_after (SetProgramBindings pb cl))
                   = m_open_debug_groups cl) by (step_call; done).
    destruct Hk as [-> ->]. done.
  - destruct (decide (m_state cl = Pending)) as [HP|HP].
    + rewrite (Commit_Pending _ _ HP). cbn. split; [done|].
      intros Hin. by apply Htail.
    + by rewrite (Commit_not_Pending _ _ HP).
  - rewrite Execute_spec. by case_bool_decide.
  - rewrite Complete_spec. by case_bool_decide.
  - cbn. split; [done|]. intros _ n Hn.
    assert (Hp : ∀ gs : list string, pop_all gs = [])
      by (induction gs; done).
    rewrite Hp in Hn. by apply elem_of_nil in Hn.
  - done.
Qed.

(** X4. The pool of debug-group names never loses a name, and on a list
    driven from its constructor every open debug group carries a pooled
    name. *)
Theorem debug_group_names_pooled (type : N) (calls : list Call)
    (cl0 : CommandListBase) :
  m_debug_group_names cl0 ⊆ m_debug_group_names (run calls cl0)
  ∧ ∀ name, name ∈ m_open_debug_groups (run calls (new type)) →
            name ∈ m_debug_group_names (run calls (new type)).
Proof.
  split.
  - revert cl0. induction calls as [|c calls IH]; intros cl0; [done|].
    cbn [run]. etrans; [apply (invoke_names_grow c cl0)|apply IH].
  - assert (H : ∀ cl, (∀ n, n ∈ m_open_debug_groups cl → n ∈ m_debug_group_names cl) →
              ∀ n, n ∈ m_open_debug_groups (run calls cl) →
                   n ∈ m_debug_group_names (run calls cl)).
    { induction calls as [|c calls IH]; intros cl Hcl; [done|].
      cbn [run]. apply IH. by apply invoke_names_grow. }
    apply H. intros n Hn. by apply elem_of_nil in Hn.
Qed.

(** The invariant of a list that is never given [PushDebugGroup]. *)
Lemma invoke_single_group c cl :
  is_push_call c = false →
  (length (m_open_debug_groups cl) ≤ 1)%nat
  ∧ (m_state cl ≠ Pending → m_open_debug_groups cl = []) →
  let cl' := object_after (invoke c cl) in
  (length (m_open_debug_groups cl') ≤ 1)%nat
  ∧ (m_state cl' ≠ Pending → m_open_debug_groups cl' = []).
Proof.
  intros Hc [Hlen Hbusy]. destruct cl as [ty cs st fi gs ns].
  cbn in Hlen, Hbusy.
  assert (Hgs : gs = [] ∨ ∃ g, gs = [g]).
  { destruct gs as [|g [|? ?]]; [by left|right; by eexists|cbn in Hlen; lia]. }
  destruct c as [g|n| |pb|q|f|f| |]; try discriminate Hc; cbn [invoke];
    destruct Hgs as [->|[g0 ->]], st;
    try (specialize (Hbusy ltac:(done)); discriminate Hbusy);
    step_call; cbn; split; try done; try lia; try (intros ?; done).
Qed.

(** X5. On a list driven from its constructor without [PushDebugGroup], so
    that only [Reset] opens groups, at most one debug group is ever open and
    none is open while the list is committed or executing: the single pop of
    [Commit] closes all there is. *)
Theorem single_debug_group_without_pushes (type : N) (calls : list Call) :
  forallb (λ c, negb (is_push_call c)) calls = true →
  let cl := run calls (new type) in
  (length (m_open_debug_groups cl) ≤ 1)%nat
  ∧ (m_state cl ≠ Pending → m_open_debug_groups cl = []).
Proof.
  intros Hall.
  assert (H : ∀ cl,
    (length (m_open_debug_groups cl) ≤ 1)%nat
    ∧ (m_state cl ≠ Pending → m_open_debug_groups cl = []) →
    (length (m_open_debug_groups (run calls cl)) ≤ 1)%nat
    ∧ (m_state (run calls cl) ≠ Pending → m_open_debug_groups (run calls cl) = [])).
  { induction calls as [|c calls IH]; intros cl Hcl; [done|].
    cbn in Hall. apply andb_prop in Hall as [Hc Hall].
    cbn [run]. apply (IH Hall). apply invoke_single_group; [|done].
    by destruct (is_push_call c). }
  apply H. cbn. split; [lia|done].
Qed.

Lemma single_debug_group_without_pushes_witness :
  let cl := run [CallReset "A"; CallReset "B"; CallCommit (mkCommandQueue 1)]
              (new 0) in
  (length (m_open_debug_groups cl) ≤ 1)%nat
  ∧ (m_state cl ≠ Pending → m_open_debug_groups cl = []).
Proof.
  exact (single_debug_group_without_pushes 0
           [CallReset "A"; CallReset "B"; CallCommit (mkCommandQueue 1)]
           eq_refl).
Defined.

(** X6. [ClearOpenDebugGroups] closes every open debug group, however many
    and in whatever state the list is, and touches nothing else; after it
    there is no top group and a pop underflows. *)
Theorem ClearOpenDebugGroups_closes_all (cl : CommandListBase) :
  ClearOpenDebugGroups cl = Return tt (set_open_debug_groups [] cl)
  ∧ GetTopOpenDebugGroup (set_open_debug_groups [] cl) = ""%string
  ∧ PopDebugGroup (set_open_debug_groups [] cl)
    = Throw underflow_error (set_open_debug_groups [] cl).
Proof.
  assert (Hp : ∀ gs : list string, pop_all gs = []) by (induction gs; done).
  unfold ClearOpenDebugGroups, modify. rewrite Hp. done.
Qed.

Lemma Reset_same_top g rest cl :
  m_state cl = Pending → m_open_debug_groups cl = g :: rest →
  Reset g cl = Return tt cl.
Proof.
  intros HP Hs. destruct cl as [ty cs st fi gs ns]. cbn in HP, Hs. subst.
  step_call; cbn in *; done.
Qed.

(** X7. A legal [Reset] with a non-empty name leaves that name as the top
    open group without deepening a non-empty stack, and a second [Reset]
    with the same name changes nothing at all. *)
Theorem Reset_same_group_idempotent (debug_group : string)
    (cl : CommandListBase) :
  m_state cl = Pending →
  debug_group ≠ ""%string →
  ∃ cl1,
    Reset debug_group cl = Return tt cl1
    ∧ GetTopOpenDebugGroup cl1 = debug_group
    ∧ length (m_open_debug_groups cl1)
      = Nat.max 1 (length (m_open_debug_groups cl))
    ∧ Reset debug_group cl1 = Return tt cl1.
Proof.
  intros HP Hne. destruct (Reset_Pending debug_group cl HP) as [names ->].
  eexists. split; [reflexivity|].
  assert (Hg : ∃ rest,
            groups_after_Reset debug_group (m_open_debug_groups cl)
            = debug_group :: rest
            ∧ S (length rest) = Nat.max 1 (length (m_open_debug_groups cl))).
  { unfold groups_after_Reset. destruct (m_open_debug_groups cl) as [|top rest].
    - rewrite (bool_decide_eq_false_2 _ Hne). by exists [].
    - case_bool_decide as Ht; [subst top; by exists rest|].
      rewrite (bool_decide_eq_false_2 _ Hne). by exists rest. }
  destruct Hg as (rest & Hg & Hlen).
  split_and!.
  - unfold GetTopOpenDebugGroup. cbn. by rewrite Hg.
  - cbn. by rewrite Hg.
  - by apply (Reset_same_top _ rest); cbn.
Qed.

Lemma Reset_same_group_idempotent_witness :
  ∃ cl1, Reset "Frame" (new 0) = Return tt cl1
    ∧ GetTopOpenDebugGroup cl1 = "Frame"%string
    ∧ Reset "Frame" cl1 = Return tt cl1.
Proof.
  destruct (Reset_same_group_idempotent "Frame" (new 0) eq_refl)
    as (cl1 & H1 & H2 & _ & H3); [discriminate|].
  exists cl1. split_and!; [exact H1|exact H2|exact H3].
Defined.

(** X8. A call on the command list that throws leaves the list exactly as
    it was.  [PopDebugGroup] throws only an underflow error and only on an
    empty stack; [Reset], [SetProgramBindings] and [Commit] throw only a
    logic error and only outside [Pending]; [Execute] and [Complete] throw
    only a logic error and only in a wrong state or with a wrong frame index;
    [PushDebugGroup], [ClearOpenDebugGroups] and [ResetCommandState] never
    throw. *)
Theorem throwing_call_changes_nothing (c : Call) (cl : CommandListBase)
    (e : exception) (cl' : CommandListBase) :
  invoke c cl = Throw e cl' →
  cl' = cl
  ∧ match c with
    | CallPopDebugGroup => e = underflow_error ∧ m_open_debug_groups cl = []
    | CallReset _ | CallSetProgramBindings _ | CallCommit _ =>
        e = logic_error ∧ m_state cl ≠ Pending
    | CallExecute f =>
        e = logic_error
        ∧ ¬ (m_state cl = Committed ∧ m_committed_frame_index cl = f)
    | CallComplete f =>
        e = logic_error
        ∧ ¬ (m_state cl = Executing ∧ m_committed_frame_index cl = f)
    | CallPushDebugGroup _ | CallClearOpenDebugGroups
    | CallResetCommandState => False
    end.
Proof.
  intros H. destruct c as [g|n| |pb|q|f|f| |]; cbn [invoke] in H.
  - destruct (decide (m_state cl = Pending)) as [HP|HP].
    + destruct (Reset_Pending g cl HP) as [names Hr]. by rewrite Hr in H.
    + assert (Hr : Reset g cl = Throw logic_error cl) by (step_call; done).
      rewrite Hr in H. inversion H. subst. done.
  - done.
  - destruct (decide (m_open_debug_groups cl = [])) as [HE|HE].
    + rewrite (PopDebugGroup_empty _ HE) in H. inversion H. subst. done.
    + destruct (PopDebugGroup_returns cl HE) as (? & Hr & _). by rewrite Hr in H.
  - destruct (decide (m_state cl = Pending)) as [HP|HP].
    + assert (Hr : returned (SetProgramBindings pb cl) = Some tt)
        by (step_call; done).
      by rewrite H in Hr.
    + assert (Hr : SetProgramBindings pb cl = Throw logic_error cl)
        by (step_call; done).
      rewrite Hr in H. inversion H. subst. done.
  - destruct (decide (m_state cl = Pending)) as [HP|HP].
    + by rewrite (Commit_Pending _ _ HP) in H.
    + rewrite (Commit_not_Pending _ _ HP) in H. inversion H. subst. done.
  - rewrite Execute_spec in H. case_bool_decide; inversion H; subst; done.
  - rewrite Complete_spec in H. case_bool_decide; inversion H; subst; done.
  - done.
  - done.
Qed.

Lemma throwing_call_changes_nothing_witness :
  invoke CallPopDebugGroup (new 0) = Throw underflow_error (new 0)
  ∧ m_open_debug_groups (new 0) = [].
Proof.
  split; [reflexivity|].
  exact (proj2 (proj2 (throwing_call_changes_nothing CallPopDebugGroup (new 0)
                         underflow_error (new 0) eq_refl))).
Defined.

End CommandListFacts.

Module ResourceManagerFacts.
Import DescriptorHeap ResourceManager.
Section Manager.

Variable types_count : nat.
Variable IsShaderVisibleHeapType : HeapType types_count → bool.

Abbreviation ResourceManager := (ResourceManager types_count).
Abbreviation Initialize := (Initialize types_count IsShaderVisibleHeapType).
Abbreviation initial_heaps := (initial_heaps types_count IsShaderVisibleHeapType).
Abbreviation run := (run types_count IsShaderVisibleHeapType).
Abbreviation invoke := (invoke types_count IsShaderVisibleHeapType).

Lemma desc_heaps_of_update idx f (rm : ResourceManager) j :
  desc_heaps_of j (update_desc_heaps idx f rm)
  = if decide (idx = j) then f (desc_heaps_of idx rm) else desc_heaps_of j rm.
Proof.
  unfold desc_heaps_of, update_desc_heaps. cbn.
  destruct (decide (idx = j)) as [->|Hne].
  - apply vlookup_insert.
  - by apply vlookup_insert_ne.
Qed.

Lemma Initialize_heap_type_spec settings x (rm : ResourceManager) :
  m_deferred_heap_allocation rm = deferred_heap_allocation settings →
  ∃ rm1,
    Initialize_heap_type types_count IsShaderVisibleHeapType settings x rm
    = Return tt rm1
    ∧ m_deferred_heap_allocation rm1 = deferred_heap_allocation settings
    ∧ same_registry rm rm1
    ∧ ∀ idx, desc_heaps_of idx rm1
             = if decide (x = idx) then initial_heaps settings idx
               else desc_heaps_of idx rm.
Proof.
  intros Hd.
  unfold Initialize_heap_type, bind, modify, get, when, ret,
    ResourceManager.initial_heaps.
  destruct (IsShaderVisibleHeapType (Enumerator x)) eqn:E;
    (eexists; split; [reflexivity|]); (split_and!; [exact Hd|split; reflexivity|]);
    intros idx; rewrite !desc_heaps_of_update;
    destruct (decide (x = idx)) as [->|]; try done;
    rewrite ?decide_True by done; cbn; by rewrite E, Hd.
Qed.

Lemma Initialize_loop settings (l : list (fin types_count)) :
  ∀ rm : ResourceManager,
    m_deferred_heap_allocation rm = deferred_heap_allocation settings →
    ∃ rm',
      for_each l
        (Initialize_heap_type types_count IsShaderVisibleHeapType settings) rm
      = Return tt rm'
      ∧ m_deferred_heap_allocation rm' = deferred_heap_allocation settings
      ∧ same_registry rm rm'
      ∧ ∀ idx, desc_heaps_of idx rm'
               = if bool_decide (idx ∈ l) then initial_heaps settings idx
                 else desc_heaps_of idx rm.
Proof.
  induction l as [|x l IH]; intros rm Hd.
  { exists rm. split_and!; try done. }
  cbn [for_each]. unfold bind at 1.
  destruct (Initialize_heap_type_spec settings x rm Hd)
    as (rm1 & -> & Hd1 & [Hp1 Hr1] & Hb1).
  destruct (IH rm1 Hd1) as (rm' & -> & Hd' & [Hp' Hr'] & Hb').
  exists rm'. split_and!; [done|done| |].
  { split; congruence. }
  intros idx. rewrite Hb', Hb1.
  destruct (decide (x = idx)) as [->|Hne].
  - rewrite (bool_decide_eq_true_2 (idx ∈ idx :: l))
      by (apply elem_of_cons; by left).
    by case_bool_decide.
  - case_bool_decide as Hin.
    + by rewrite bool_decide_eq_true_2 by (apply elem_of_cons; by right).
    + rewrite bool_decide_eq_false_2; [done|].
      intros [Heq|Hin']%elem_of_cons; [by symmetry in Heq|done].
Qed.

Lemma Initialize_spec settings (rm : ResourceManager) :
  ∃ rm', Initialize settings rm = Return tt rm'
    ∧ m_deferred_heap_allocation rm' = deferred_heap_allocation settings
    ∧ same_registry rm rm'
    ∧ ∀ idx, desc_heaps_of idx rm' = initial_heaps settings idx.
Proof.
  unfold ResourceManager.Initialize. unfold bind at 1, modify at 1.
  destruct (Initialize_loop settings (enum (fin types_count))
              (set_deferred_heap_allocation
                 (deferred_heap_allocation settings) rm) eq_refl)
    as (rm' & -> & Hd & Hk & Hb).
  exists rm'. split_and!; [done|done|done|].
  intros idx. rewrite Hb. rewrite bool_decide_eq_true_2; [done|].
  apply elem_of_enum.
Qed.

(** C6. For any settings, [Initialize] returns and leaves, for each heap
    type of the enumeration, exactly one CPU-only heap of that type sized by
    [default_heap_sizes] and, only for a shader-visible-capable type, exactly
    one more heap, shader-visible and sized by [shader_visible_heap_sizes];
    the manager and every heap created carry the settings' deferred
    allocation flag. *)
Theorem Initialize_creates_heaps (settings : Settings types_count)
    (rm : ResourceManager) :
  ∃ rm', Initialize settings rm = Return tt rm'
    ∧ m_deferred_heap_allocation rm' = deferred_heap_allocation settings
    ∧ ∀ idx : fin types_count,
        let heap_type := Enumerator idx in
        let capable := IsShaderVisibleHeapType heap_type in
        desc_heaps_of idx rm'
        = Create (DescriptorHeap.mkSettings heap_type
                    (default_heap_sizes settings !!! idx)
                    (deferred_heap_allocation settings) false)
          :: (if capable
              then [Create (DescriptorHeap.mkSettings heap_type
                              (shader_visible_heap_sizes settings !!! idx)
                              (deferred_heap_allocation settings) true)]
              else [])
        ∧ count_heaps false (desc_heaps_of idx rm') = 1%nat
        ∧ count_heaps true (desc_heaps_of idx rm')
          = (if capable then 1%nat else 0%nat)
        ∧ length (desc_heaps_of idx rm') = (if capable then 2%nat else 1%nat)
        ∧ Forall (λ sp, ∃ heap, sp = Some heap
                    ∧ type (GetSettings heap) = heap_type
                    ∧ deferred_allocation (GetSettings heap)
                      = deferred_heap_allocation settings)
                 (desc_heaps_of idx rm').
Proof.
  destruct (Initialize_spec settings rm) as (rm' & HI & Hd & _ & Hb).
  exists rm'. split_and!; [done|done|].
  intros idx heap_type capable. rewrite Hb.
  unfold ResourceManager.initial_heaps. fold heap_type. fold capable.
  destruct capable; cbn; split_and!; try done;
    repeat constructor; eexists; (split; [reflexivity|done]).
Qed.

(** *** The bucket invariant and [ForEachDescriptorHeap] *)

Lemma for_each_heap_cases {A} idx
    (process_heap : DescriptorHeap types_count → A → DescriptorHeap types_count * A)
    (desc_heaps : list (Ptr (DescriptorHeap types_count))) :
  ∀ a,
    (Forall (heap_typed idx) desc_heaps
     ∧ ∃ desc_heaps' a',
         for_each_heap (Enumerator idx) process_heap desc_heaps a
         = Return tt (desc_heaps', a')
         ∧ ((∀ heap b, type (GetSettings (process_heap heap b).1)
                       = type (GetSettings heap)) →
            Forall (heap_typed idx) desc_heaps'))
    ∨ (¬ Forall (heap_typed idx) desc_heaps
       ∧ ∃ s, for_each_heap (Enumerator idx) process_heap desc_heaps a
              = Throw logic_error s).
Proof.
  induction desc_heaps as [|[heap|] rest IH]; intros a.
  - left. split; [constructor|]. by exists [], a.
  - cbn [for_each_heap]. case_bool_decide as Ht; cbn [negb].
    + destruct (process_heap heap a) as [heap' a'] eqn:Ep.
      destruct (IH a') as [(Hrest & rest' & a'' & -> & Hkeep)
                          |(Hrest & [rest' a''] & ->)].
      * left. split; [constructor; [by exists heap|done]|].
        exists (Some heap' :: rest'), a''. split; [done|].
        intros Hp. constructor; [|by apply Hkeep].
        exists heap'. split; [done|].
        specialize (Hp heap a). rewrite Ep in Hp. cbn in Hp. congruence.
      * right. split; [|by eexists].
        intros HF. apply Hrest. by inversion HF.
    + right. split; [|by eexists].
      intros HF. inversion HF as [|? ? (h & Hh & Hty) ?]; subst.
      inversion Hh; subst. done.
  - right. split; [|by eexists].
    intros HF. inversion HF as [|? ? (h & Hh & _) ?]; subst. done.
Qed.

Lemma for_each_cons {S X} (x : X) xs (body : X → M S unit) s :
  for_each (x :: xs) body s
  = match body x s with
    | Return _ s' => for_each xs body s'
    | Throw e s' => Throw e s'
    end.
Proof. reflexivity. Qed.

Lemma for_each_heap_of_type_unfold {A}
    (process_heap : DescriptorHeap types_count → A → DescriptorHeap types_count * A)
    x (rm : ResourceManager) a :
  for_each_heap_of_type process_heap x (rm, a)
  = match for_each_heap (Enumerator x) process_heap (desc_heaps_of x rm) a with
    | Return _ (desc_heaps', a') =>
        Return tt (update_desc_heaps x (λ _, desc_heaps') rm, a')
    | Throw e (desc_heaps', a') =>
        Throw e (update_desc_heaps x (λ _, desc_heaps') rm, a')
    end.
Proof. reflexivity. Qed.

Lemma for_each_types_cases {A}
    (process_heap : DescriptorHeap types_count → A → DescriptorHeap types_count * A)
    (l : list (fin types_count)) :
  NoDup l →
  ∀ (rm : ResourceManager) a,
    ((∀ idx, idx ∈ l → Forall (heap_typed idx) (desc_heaps_of idx rm))
     ∧ ∃ rm' a',
         for_each l (for_each_heap_of_type process_heap) (rm, a)
         = Return tt (rm', a')
         ∧ m_deferred_heap_allocation rm' = m_deferred_heap_allocation rm
         ∧ same_registry rm rm'
         ∧ (∀ idx, idx ∉ l → desc_heaps_of idx rm' = desc_heaps_of idx rm)
         ∧ ((∀ heap b, type (GetSettings (process_heap heap b).1)
                       = type (GetSettings heap)) →
            ∀ idx, idx ∈ l → Forall (heap_typed idx) (desc_heaps_of idx rm')))
    ∨ (¬ (∀ idx, idx ∈ l → Forall (heap_typed idx) (desc_heaps_of idx rm))
       ∧ ∃ s, for_each l (for_each_heap_of_type process_heap) (rm, a)
              = Throw logic_error s).
Proof.
  induction l as [|x l IH]; intros Hnd rm a.
  { left. split; [intros idx Hin; by apply elem_of_nil in Hin|].
    exists rm, a. split_and!; try done.
    intros _ idx Hin. by apply elem_of_nil in Hin. }
  apply NoDup_cons in Hnd as [Hx Hnd].
  rewrite !for_each_cons, !for_each_heap_of_type_unfold.
  destruct (for_each_heap_cases x process_heap (desc_heaps_of x rm) a)
    as [(Htyped & hs' & a' & -> & Hkeep)|(Hbad & [hs' a'] & ->)].
  - set (rm1 := update_desc_heaps x (λ _, hs') rm).
    assert (Hother : ∀ idx, idx ≠ x → desc_heaps_of idx rm1 = desc_heaps_of idx rm).
    { intros idx Hne. subst rm1. rewrite desc_heaps_of_update.
      by rewrite decide_False by done. }
    assert (Hself : desc_heaps_of x rm1 = hs').
    { subst rm1. rewrite desc_heaps_of_update. by rewrite decide_True. }
    destruct (IH Hnd rm1 a')
      as [(Hl & rm' & a'' & -> & Hd & [Hp Hr] & Hout & Hkeep')
         |(Hl & s & ->)].
    + left. split.
      * intros idx [->|Hin]%elem_of_cons; [done|].
        rewrite <- Hother; [by apply Hl|]. intros ->. done.
      * exists rm', a''. split_and!; [done|done|by split| |].
        -- intros idx Hin. apply not_elem_of_cons in Hin as [Hne Hin].
           by rewrite (Hout idx Hin), Hother.
        -- intros Hpres idx [->|Hin]%elem_of_cons.
           ++ rewrite (Hout x Hx), Hself. by apply Hkeep.
           ++ by apply Hkeep'.
    + right. split; [|by eexists].
      intros Hall. apply Hl. intros idx Hin.
      rewrite Hother; [apply Hall; by apply elem_of_cons; right|].
      intros ->. done.
  - right. split; [|by eexists].
    intros Hall. apply Hbad, Hall. apply elem_of_cons. by left.
Qed.

Lemma ForEachDescriptorHeap_cases {A}
    (process_heap : DescriptorHeap types_count → A → DescriptorHeap types_count * A)
    (rm : ResourceManager) a :
  (heaps_typed rm
   ∧ ∃ rm' a', ForEachDescriptorHeap process_heap (rm, a) = Return tt (rm', a')
       ∧ m_deferred_heap_allocation rm' = m_deferred_heap_allocation rm
       ∧ same_registry rm rm'
       ∧ ((∀ heap b, type (GetSettings (process_heap heap b).1)
                     = type (GetSettings heap)) → heaps_typed rm'))
  ∨ (¬ heaps_typed rm
     ∧ ∃ s, ForEachDescriptorHeap process_heap (rm, a) = Throw logic_error s).
Proof.
  unfold ForEachDescriptorHeap.
  destruct (for_each_types_cases process_heap (enum (fin types_count))
              (NoDup_enum _) rm a)
    as [(Hl & rm' & a' & -> & Hd & Hk & _ & Hkeep)|(Hl & s & ->)].
  - left. split; [intros idx; apply Hl, elem_of_enum|].
    exists rm', a'. split_and!; try done.
    intros Hp idx. apply Hkeep; [done|apply elem_of_enum].
  - right. split; [|by eexists].
    intros Ht. apply Hl. intros idx _. apply Ht.
Qed.

Lemma CreateDescriptorHeap_valid settings idx (rm : ResourceManager) :
  type settings = Enumerator idx →
  CreateDescriptorHeap settings rm
  = Return (to_uint32 (Z.of_nat (length (desc_heaps_of idx rm))))
      (update_desc_heaps idx (λ desc_heaps, desc_heaps ++ [Create settings]) rm).
Proof.
  intros Ht. unfold CreateDescriptorHeap. rewrite Ht.
  unfold bind, modify, get, ret. f_equal.
  rewrite desc_heaps_of_update, decide_True by done.
  rewrite length_app. cbn. f_equal. lia.
Qed.

Lemma heaps_typed_invoke c (rm : ResourceManager) :
  heaps_typed rm → heaps_typed (object_after (invoke c rm)).
Proof.
  intros HT. destruct c as [s| |b|pb|s]; cbn [ResourceManager.invoke].
  - destruct (Initialize_spec s rm) as (rm' & -> & _ & _ & Hb).
    intros idx. cbn. rewrite Hb. unfold ResourceManager.initial_heaps.
    destruct (IsShaderVisibleHeapType _); repeat constructor;
      eexists; (split; [reflexivity|done]).
  - intros idx. unfold desc_heaps_of. cbn. rewrite vlookup_map. constructor.
  - unfold SetDeferredHeapAllocation, bind, get. case_bool_decide; [done|].
    unfold modify, with_captured.
    destruct (ForEachDescriptorHeap_cases
                (λ descriptor_heap (_ : unit),
                   (SetDeferredAllocation b descriptor_heap, tt))
                (set_deferred_heap_allocation b rm) tt)
      as [(_ & rm' & [] & -> & _ & _ & Hkeep)|(Hbad & _)].
    + cbn. by apply Hkeep.
    + by destruct Hbad.
  - done.
  - unfold bind. destruct (type s) as [idx| |] eqn:Ht.
    + rewrite (CreateDescriptorHeap_valid s idx rm Ht). cbn.
      intros j. rewrite desc_heaps_of_update.
      destruct (decide (idx = j)) as [->|]; [|done].
      apply Forall_app. split; [done|]. repeat constructor. by eexists.
    + unfold CreateDescriptorHeap. by rewrite Ht.
    + unfold CreateDescriptorHeap. by rewrite Ht.
Qed.

Lemma heaps_typed_run calls : ∀ rm : ResourceManager,
  heaps_typed rm → heaps_typed (run calls rm).
Proof.
  induction calls as [|c calls IH]; intros rm HT; [done|].
  cbn. by apply IH, heaps_typed_invoke.
Qed.

Lemma heaps_typed_new : heaps_typed (new : ResourceManager).
Proof.
  intros idx. unfold desc_heaps_of. cbn. rewrite lookup_fun_to_vec. constructor.
Qed.

Lemma to_uint32_range z : 0 ≤ z → 0 ≤ to_uint32 z ≤ z.
Proof.
  intros Hz. unfold to_uint32, uint32_modulus. split.
  - apply Z.mod_pos_bound. lia.
  - apply Z.mod_le; lia.
Qed.

(** C7. [CreateDescriptorHeap] with a sentinel type throws an invalid
    argument error on any manager and leaves it unchanged.  On a manager
    reached from the constructor, with a heap type of the enumeration it
    appends the new heap to that type's bucket and returns an index at which
    [GetDescriptorHeap] of the same type finds a heap that reports that
    type: the new heap itself while the bucket holds fewer than 2^32 heaps.
    Every heap stored in a bucket of such a manager reports the bucket's
    type, and [ForEachDescriptorHeap] throws a logic error on any manager
    with a null or wrongly typed entry and returns on the others. *)
Theorem heap_type_integrity (calls : list (Call types_count))
    (settings : DescriptorHeap.Settings types_count) :
  let rm := run calls new in
  (type settings = Undefined ∨ type settings = Count →
     ∀ rm0 : ResourceManager,
       CreateDescriptorHeap settings rm0 = Throw invalid_argument rm0)
  ∧ (∀ idx, type settings = Enumerator idx →
       ∃ index rm' heap,
         CreateDescriptorHeap settings rm = Return index rm'
         ∧ desc_heaps_of idx rm' = desc_heaps_of idx rm ++ [Create settings]
         ∧ (∀ j, j ≠ idx → desc_heaps_of j rm' = desc_heaps_of j rm)
         ∧ GetDescriptorHeap (Enumerator idx) index rm' = Return heap rm'
         ∧ type (GetSettings heap) = type settings
         ∧ (Z.of_nat (length (desc_heaps_of idx rm)) < uint32_modulus →
              index = Z.of_nat (length (desc_heaps_of idx rm))
              ∧ Some heap = Create settings))
  ∧ heaps_typed rm
  ∧ (∀ (A : Type) process_heap (a : A) (rm0 : ResourceManager),
       (heaps_typed rm0 →
          ∃ s, ForEachDescriptorHeap process_heap (rm0, a) = Return tt s)
       ∧ (¬ heaps_typed rm0 →
          ∃ s, ForEachDescriptorHeap process_heap (rm0, a)
               = Throw logic_error s)).
Proof.
  intros rm.
  assert (HT : heaps_typed rm) by apply heaps_typed_run, heaps_typed_new.
  split_and!.
  - intros [Ht|Ht] rm0; unfold CreateDescriptorHeap; by rewrite Ht.
  - intros idx Ht. rewrite (CreateDescriptorHeap_valid settings idx rm Ht).
    set (n := length (desc_heaps_of idx rm)).
    set (rm' := update_desc_heaps idx _ rm).
    assert (Hb : desc_heaps_of idx rm' = desc_heaps_of idx rm ++ [Create settings]).
    { subst rm'. by rewrite desc_heaps_of_update, decide_True. }
    destruct (to_uint32_range (Z.of_nat n)) as [Hlo Hhi]; [lia|].
    assert (Hin : (Z.to_nat (to_uint32 (Z.of_nat n)) < length (desc_heaps_of idx rm'))%nat).
    { rewrite Hb, length_app. cbn. fold n. lia. }
    destruct (lookup_lt_is_Some_2 _ _ Hin) as [sp Hsp].
    assert (Hty : heap_typed idx sp).
    { rewrite Hb in Hsp. apply lookup_app_Some in Hsp as [Hsp|[_ Hsp]].
      - by eapply (Forall_lookup_1 _ _ _ _ (HT idx)).
      - apply list_lookup_singleton_Some in Hsp as [_ <-]. by eexists. }
    destruct Hty as (heap & -> & Hheap).
    exists (to_uint32 (Z.of_nat n)), rm', heap. split_and!; try done.
    + intros j Hne. subst rm'. rewrite desc_heaps_of_update.
      by rewrite decide_False by done.
    + unfold GetDescriptorHeap, GetDescriptorHeapPtr, bind, get, ret.
      rewrite (proj2 (Z.leb_gt _ _)) by lia. unfold Ptr in *. by rewrite Hsp.
    + congruence.
    + intros Hsmall.
      assert (Hid : to_uint32 (Z.of_nat n) = Z.of_nat n).
      { unfold to_uint32. apply Z.mod_small. lia. }
      split; [done|]. rewrite Hid, Nat2Z.id, Hb in Hsp.
      rewrite lookup_app_r in Hsp by (fold n; lia).
      fold n in Hsp. rewrite Nat.sub_diag in Hsp. cbn in Hsp. congruence.
  - done.
  - intros A process_heap a rm0.
    destruct (ForEachDescriptorHeap_cases process_heap rm0 a)
      as [(Hty & rm' & a' & -> & _)|(Hbad & s & ->)].
    + split; [by eexists|done].
    + split; [done|by eexists].
Qed.


(** ** Further properties of the resource manager *)

Lemma vinsert_same {A n} (i : fin n) (x : A) (v : vec A n) :
  v !!! i = x → vinsert i x v = v.
Proof. intros <-. apply vlookup_insert_self. Qed.

Lemma update_desc_heaps_same idx hs (rm : ResourceManager) :
  desc_heaps_of idx rm = hs → update_desc_heaps idx (λ _, hs) rm = rm.
Proof.
  intros Hs. destruct rm as [d v pbs pool].
  unfold update_desc_heaps, set_descriptor_heap_types, desc_heaps_of in *.
  cbn in *. by rewrite (vinsert_same _ _ _ Hs).
Qed.

(** [GetDescriptorHeapPtr] and [GetDescriptorHeap] as lookups in a bucket. *)
Lemma GetDescriptorHeapPtr_cases (idx : fin types_count) index
    (rm : ResourceManager) :
  0 ≤ index →
  GetDescriptorHeapPtr (Enumerator idx) index rm
  = match desc_heaps_of idx rm !! Z.to_nat index with
    | Some sp => Return sp rm
    | None => Throw invalid_argument rm
    end.
Proof.
  intros Hi. unfold GetDescriptorHeapPtr, bind, get, ret, throw.
  destruct (Z.leb_spec (Z.of_nat (length (desc_heaps_of idx rm))) index) as [Hle|Hlt].
  - rewrite lookup_ge_None_2; [done|lia].
  - destruct (lookup_lt_is_Some_2 (desc_heaps_of idx rm) (Z.to_nat index))
      as [sp Hsp]; [lia|].
    unfold Ptr in *. by rewrite Hsp.
Qed.

Lemma GetDescriptorHeap_cases (idx : fin types_count) index
    (rm : ResourceManager) :
  0 ≤ index →
  GetDescriptorHeap (Enumerator idx) index rm
  = match desc_heaps_of idx rm !! Z.to_nat index with
    | Some (Some heap) => Return heap rm
    | _ => Throw invalid_argument rm
    end.
Proof.
  intros Hi. unfold GetDescriptorHeap, bind.
  rewrite (GetDescriptorHeapPtr_cases idx index rm Hi). unfold Ptr in *.
  destruct (_ !! _) as [[heap|]|]; reflexivity.
Qed.

(** X9. [GetDescriptorHeap] returns the heap stored at the index in the
    bucket of the heap type and leaves the manager as it is; for a sentinel
    type, an index past the end of the bucket or a null entry it throws an
    invalid argument error.  [GetDescriptorHeapPtr] differs on a sentinel
    type: it returns a null pointer without throwing. *)
Theorem GetDescriptorHeap_lookup (type : HeapType types_count) (index : uint32)
    (rm : ResourceManager) :
  0 ≤ index →
  GetDescriptorHeap type index rm
  = match type with
    | Enumerator idx =>
        match desc_heaps_of idx rm !! Z.to_nat index with
        | Some (Some heap) => Return heap rm
        | _ => Throw invalid_argument rm
        end
    | _ => Throw invalid_argument rm
    end
  ∧ GetDescriptorHeapPtr type index rm
    = match type with
      | Enumerator idx =>
          match desc_heaps_of idx rm !! Z.to_nat index with
          | Some sp => Return sp rm
          | None => Throw invalid_argument rm
          end
      | _ => Return None rm
      end
  ∧ ∀ idx, type = Enumerator idx →
           Z.of_nat (length (desc_heaps_of idx rm)) ≤ index →
           GetDescriptorHeap type index rm = Throw invalid_argument rm.
Proof.
  intros Hi. destruct type as [idx| |]; split_and!; try done.
  - by apply GetDescriptorHeap_cases.
  - by apply GetDescriptorHeapPtr_cases.
  - intros idx' [= <-] Hle. rewrite GetDescriptorHeap_cases by done.
    rewrite lookup_ge_None_2; [done|unfold uint32, Ptr in *; lia].
Qed.

(** X10. Indices are stable: a heap that [GetDescriptorHeap] finds at an
    index of a type is found there unchanged after any later
    [CreateDescriptorHeap], of the same type, of another one or rejected. *)
Theorem CreateDescriptorHeap_keeps_indices
    (settings : DescriptorHeap.Settings types_count)
    (type : HeapType types_count) (index : uint32)
    (heap : DescriptorHeap types_count) (rm : ResourceManager) :
  0 ≤ index →
  GetDescriptorHeap type index rm = Return heap rm →
  let rm' := object_after (CreateDescriptorHeap settings rm) in
  GetDescriptorHeap type index rm' = Return heap rm'.
Proof.
  intros Hi Hget rm'. destruct type as [idx| |]; [|done|done].
  rewrite GetDescriptorHeap_cases in Hget by done.
  rewrite GetDescriptorHeap_cases by done.
  destruct (desc_heaps_of idx rm !! Z.to_nat index) as [[h|]|] eqn:Hl;
    [|done|done].
  inversion Hget; subst h. subst rm'.
  destruct (DescriptorHeap.type settings) as [j| |] eqn:Ht.
  - rewrite (CreateDescriptorHeap_valid settings j rm Ht). cbn [object_after].
    rewrite desc_heaps_of_update.
    destruct (decide (j = idx)) as [->|Hne]; unfold Ptr in *.
    + by rewrite (lookup_app_l_Some _ _ _ _ Hl).
    + by rewrite Hl.
  - unfold CreateDescriptorHeap. rewrite Ht. cbn. unfold Ptr in *. by rewrite Hl.
  - unfold CreateDescriptorHeap. rewrite Ht. cbn. unfold Ptr in *. by rewrite Hl.
Qed.

(** X11. After [Initialize], index 0 of every heap type holds the CPU-only
    heap of the default size.  For a shader-visible-capable type index 1
    holds the shader-visible heap, which is also the default shader-visible
    heap of the type; for the other types and for the sentinels there is no
    default shader-visible heap and asking for it throws an invalid
    argument error. *)
Theorem Initialize_then_get (settings : Settings types_count)
    (rm : ResourceManager) (idx : fin types_count) :
  let rm' := object_after (Initialize settings rm) in
  let cpu_heap :=
    {| m_settings := DescriptorHeap.mkSettings (Enumerator idx)
                       (default_heap_sizes settings !!! idx)
                       (deferred_heap_allocation settings) false |} in
  let gpu_heap :=
    {| m_settings := DescriptorHeap.mkSettings (Enumerator idx)
                       (shader_visible_heap_sizes settings !!! idx)
                       (deferred_heap_allocation settings) true |} in
  GetDescriptorHeap (Enumerator idx) 0 rm' = Return cpu_heap rm'
  ∧ (if IsShaderVisibleHeapType (Enumerator idx)
     then GetDescriptorHeap (Enumerator idx) 1 rm' = Return gpu_heap rm'
          ∧ GetDefaultShaderVisibleDescriptorHeap (Enumerator idx) rm'
            = Return gpu_heap rm'
     else GetDescriptorHeap (Enumerator idx) 1 rm' = Throw invalid_argument rm'
          ∧ GetDefaultShaderVisibleDescriptorHeap (Enumerator idx) rm'
            = Throw invalid_argument rm')
  ∧ GetDescriptorHeap (Enumerator idx) 2 rm' = Throw invalid_argument rm'
  ∧ GetDefaultShaderVisibleDescriptorHeap Count rm' = Throw invalid_argument rm'
  ∧ GetDefaultShaderVisibleDescriptorHeap Undefined rm'
    = Throw invalid_argument rm'.
Proof.
  intros rm' cpu_heap gpu_heap. subst rm'.
  destruct (Initialize_spec settings rm) as (rm' & -> & _ & _ & Hb).
  cbn [object_after].
  rewrite !GetDescriptorHeap_cases by lia.
  unfold GetDefaultShaderVisibleDescriptorHeap,
    GetDefaultShaderVisibleDescriptorHeapPtr, bind, get, ret.
  rewrite Hb. unfold ResourceManager.initial_heaps.
  destruct (IsShaderVisibleHeapType (Enumerator idx)); cbn; done.
Qed.

Lemma for_each_heap_map_fold {A} idx
    (f : DescriptorHeap types_count → DescriptorHeap types_count)
    (g : DescriptorHeap types_count → A → A)
    (desc_heaps : list (Ptr (DescriptorHeap types_count))) :
  Forall (heap_typed idx) desc_heaps →
  ∀ a, for_each_heap (Enumerator idx) (λ heap b, (f heap, g heap b)) desc_heaps a
       = Return tt (fmap f <$> desc_heaps, foldl (visit g) a desc_heaps).
Proof.
  induction 1 as [|sp rest (heap & -> & Hty) _ IH]; intros a; [done|].
  cbn [for_each_heap]. unfold GetSettings in *. rewrite Hty.
  rewrite bool_decide_eq_true_2 by done. cbn [negb]. by rewrite IH.
Qed.

Lemma for_each_types_map_fold {A}
    (f : DescriptorHeap types_count → DescriptorHeap types_count)
    (g : DescriptorHeap types_count → A → A)
    (l : list (fin types_count)) :
  NoDup l →
  ∀ (rm : ResourceManager) a,
    (∀ idx, idx ∈ l → Forall (heap_typed idx) (desc_heaps_of idx rm)) →
    ∃ rm',
      for_each l (for_each_heap_of_type (λ heap b, (f heap, g heap b))) (rm, a)
      = Return tt
          (rm', foldl (visit g) a (concat (map (λ idx, desc_heaps_of idx rm) l)))
      ∧ m_deferred_heap_allocation rm' = m_deferred_heap_allocation rm
      ∧ same_registry rm rm'
      ∧ ∀ idx, desc_heaps_of idx rm'
               = if bool_decide (idx ∈ l) then fmap f <$> desc_heaps_of idx rm
                 else desc_heaps_of idx rm.
Proof.
  induction l as [|x l IH]; intros Hnd rm a Hty.
  { exists rm. split_and!; try done. }
  apply NoDup_cons in Hnd as [Hx Hnd].
  rewrite for_each_cons, for_each_heap_of_type_unfold.
  rewrite for_each_heap_map_fold by (apply Hty, elem_of_cons; by left).
  set (rm1 := update_desc_heaps x _ rm).
  assert (Hother : ∀ idx, idx ≠ x → desc_heaps_of idx rm1 = desc_heaps_of idx rm).
  { intros idx Hne. subst rm1. rewrite desc_heaps_of_update.
    by rewrite decide_False by done. }
  assert (Hself : desc_heaps_of x rm1 = fmap f <$> desc_heaps_of x rm).
  { subst rm1. rewrite desc_heaps_of_update. by rewrite decide_True. }
  destruct (IH Hnd rm1 (foldl (visit g) a (desc_heaps_of x rm)))
    as (rm' & -> & Hd & [Hp Hr] & Hb).
  { intros idx Hin. rewrite Hother; [|by intros ->].
    apply Hty, elem_of_cons. by right. }
  exists rm'. split_and!; [| done | by split |].
  - do 2 f_equal. cbn [map concat]. rewrite foldl_app. f_equal.
    f_equal. apply map_ext_in. intros idx Hin%list_elem_of_In.
    apply Hother. by intros ->.
  - intros idx. rewrite Hb. destruct (decide (idx = x)) as [->|Hne].
    + rewrite (bool_decide_eq_false_2 _ Hx).
      by rewrite bool_decide_eq_true_2 by (apply elem_of_cons; by left).
    + rewrite Hother by done. case_bool_decide as Hin.
      * by rewrite bool_decide_eq_true_2 by (apply elem_of_cons; by right).
      * rewrite bool_decide_eq_false_2; [done|].
        intros [?|?]%elem_of_cons; done.
Qed.

Lemma ForEachDescriptorHeap_map_fold {A}
    (f : DescriptorHeap types_count → DescriptorHeap types_count)
    (g : DescriptorHeap types_count → A → A) (rm : ResourceManager) a :
  heaps_typed rm →
  ∃ rm',
    ForEachDescriptorHeap (λ heap b, (f heap, g heap b)) (rm, a)
    = Return tt (rm', foldl (visit g) a (all_heaps rm))
    ∧ m_deferred_heap_allocation rm' = m_deferred_heap_allocation rm
    ∧ same_registry rm rm'
    ∧ ∀ idx, desc_heaps_of idx rm' = fmap f <$> desc_heaps_of idx rm.
Proof.
  intros Hty. unfold ForEachDescriptorHeap, all_heaps.
  destruct (for_each_types_map_fold f g (enum (fin types_count))
              (NoDup_enum _) rm a) as (rm' & -> & Hd & Hk & Hb).
  { intros idx _. apply Hty. }
  exists rm'. split_and!; try done.
  intros idx. rewrite Hb. by rewrite bool_decide_eq_true_2 by apply elem_of_enum.
Qed.

Lemma ResourceManager_eq (rm rm' : ResourceManager) :
  m_deferred_heap_allocation rm' = m_deferred_heap_allocation rm →
  same_registry rm rm' →
  (∀ idx, desc_heaps_of idx rm' = desc_heaps_of idx rm) →
  rm' = rm.
Proof.
  destruct rm as [d v pbs pool], rm' as [d' v' pbs' pool'].
  unfold same_registry, desc_heaps_of. cbn. intros -> [-> ->] Hv.
  f_equal. by apply vec_eq.
Qed.

(** X12. On a manager reached from the constructor, [ForEachDescriptorHeap]
    with a callback that only reads the heaps returns, leaves the manager as
    it is and has called the callback once for every stored heap, bucket
    after bucket in the order of the heap types and in each bucket in the
    order of creation. *)
Theorem ForEachDescriptorHeap_visits_in_order (calls : list (Call types_count))
    (A : Type) (read_heap : DescriptorHeap types_count → A → A) (a : A) :
  let rm := run calls new in
  ForEachDescriptorHeap (λ heap b, (heap, read_heap heap b)) (rm, a)
  = Return tt (rm, foldl (visit read_heap) a (all_heaps rm))
  ∧ ForEachDescriptorHeap (λ heap (n : nat), (heap, S n)) (rm, 0%nat)
    = Return tt (rm, length (all_heaps rm)).
Proof.
  intros rm.
  assert (HT : heaps_typed rm) by apply heaps_typed_run, heaps_typed_new.
  assert (Hread : ∀ B (r : DescriptorHeap types_count → B → B) b,
            ForEachDescriptorHeap (λ heap c, (heap, r heap c)) (rm, b)
            = Return tt (rm, foldl (visit r) b (all_heaps rm))).
  { intros B r b.
    destruct (ForEachDescriptorHeap_map_fold (λ heap, heap) r rm b HT)
      as (rm' & -> & Hd & Hk & Hb).
    do 2 f_equal. apply ResourceManager_eq; [done|done|].
    intros idx. rewrite Hb. rewrite <- (list_fmap_id (desc_heaps_of idx rm)) at 2.
    apply list_fmap_ext. intros _ [h|] _; done. }
  split; [apply Hread|].
  rewrite (Hread nat (λ _ n, S n) 0%nat). do 2 f_equal.
  assert (Hcount : ∀ (l : list (Ptr (DescriptorHeap types_count))) n,
            Forall (λ sp, is_Some sp) l →
            foldl (visit (λ _ n, S n)) n l = (n + length l)%nat).
  { induction l as [|sp l IH]; intros n Hl; [cbn; lia|].
    inversion Hl as [|? ? [h ->] Hl']; subst. cbn. rewrite IH by done. lia. }
  rewrite Hcount; [done|]. unfold all_heaps.
  apply Forall_concat, Forall_forall. intros hs Hin.
  apply list_elem_of_fmap in Hin as (idx & -> & _).
  eapply Forall_impl; [apply HT|]. intros sp (h & -> & _). by eexists.
Qed.

(** X13. On a manager reached from the constructor,
    [SetDeferredHeapAllocation] returns with the flag set.  When the flag
    was that value already no heap is touched, so a heap created with its
    own setting keeps it; when the flag changes, every stored heap gets the
    new deferred-allocation setting and keeps its type, size and
    visibility. *)
Theorem SetDeferredHeapAllocation_propagates (calls : list (Call types_count))
    (deferred_heap_allocation' : bool) :
  let rm := run calls new in
  ∃ rm',
    SetDeferredHeapAllocation deferred_heap_allocation' rm = Return tt rm'
    ∧ m_deferred_heap_allocation rm' = deferred_heap_allocation'
    ∧ same_registry rm rm'
    ∧ heaps_typed rm'
    ∧ (m_deferred_heap_allocation rm = deferred_heap_allocation' → rm' = rm)
    ∧ (m_deferred_heap_allocation rm ≠ deferred_heap_allocation' →
       ∀ idx,
         desc_heaps_of idx rm'
         = fmap (SetDeferredAllocation deferred_heap_allocation')
             <$> desc_heaps_of idx rm
         ∧ Forall (λ sp, ∃ heap, sp = Some heap
                     ∧ deferred_allocation (GetSettings heap)
                       = deferred_heap_allocation')
                  (desc_heaps_of idx rm')).
Proof.
  intros rm.
  assert (HT : heaps_typed rm) by apply heaps_typed_run, heaps_typed_new.
  unfold SetDeferredHeapAllocation, bind at 1, get.
  case_bool_decide as Hflag.
  - exists rm. split_and!; try done.
  - unfold bind, modify, with_captured.
    destruct (ForEachDescriptorHeap_map_fold
                (SetDeferredAllocation deferred_heap_allocation')
                (λ _ (u : unit), tt)
                (set_deferred_heap_allocation deferred_heap_allocation' rm) tt)
      as (rm' & Hrun & Hd & Hk & Hb); [exact HT|].
    assert (Hsame : ∀ (l : list (Ptr (DescriptorHeap types_count))) (u : unit),
              foldl (visit (λ _ (u : unit), tt)) u l = u).
    { induction l as [|[h|] l IH]; intros []; cbn; [done| |]; apply IH. }
    rewrite Hsame in Hrun.
    replace (λ (descriptor_heap : DescriptorHeap types_count) (_ : unit),
               (SetDeferredAllocation deferred_heap_allocation' descriptor_heap, tt))
      with (λ (heap : DescriptorHeap types_count) (b : unit),
               (SetDeferredAllocation deferred_heap_allocation' heap,
                (λ _ (u : unit), tt) heap b)) by reflexivity.
    rewrite Hrun. exists rm'. split_and!; try done.
    + intros idx. rewrite Hb. cbn.
      eapply Forall_fmap, Forall_impl; [apply HT|].
      intros sp (h & -> & Hty). eexists. split; [reflexivity|]. exact Hty.
    + intros _ idx. rewrite Hb. cbn. split; [done|].
      eapply Forall_fmap, Forall_impl; [apply HT|].
      intros sp (h & -> & _). eexists. split; [reflexivity|]. done.
Qed.

(** X14. [Release] returns on every manager, empties the release pool and
    every bucket and keeps the flag and the registered program bindings;
    afterwards no heap can be got, of no type at no index, there is no
    default shader-visible heap, and [ForEachDescriptorHeap] finds nothing
    to visit. *)
Theorem Release_clears_every_bucket (rm : ResourceManager) :
  ∃ rm',
    Release rm = Return tt rm'
    ∧ m_deferred_heap_allocation rm' = m_deferred_heap_allocation rm
    ∧ m_program_bindings rm' = m_program_bindings rm
    ∧ m_sp_release_pool rm' = (λ _, []) <$> m_sp_release_pool rm
    ∧ (∀ idx, desc_heaps_of idx rm' = [])
    ∧ (∀ type index, GetDescriptorHeap type index rm' = Throw invalid_argument rm')
    ∧ (∀ type, GetDefaultShaderVisibleDescriptorHeap type rm'
               = Throw invalid_argument rm')
    ∧ ∀ (A : Type) process_heap (a : A),
        ForEachDescriptorHeap process_heap (rm', a) = Return tt (rm', a).
Proof.
  eexists. split; [reflexivity|].
  set (rm' := set_descriptor_heap_types _ _).
  assert (Hb : ∀ idx, desc_heaps_of idx rm' = []).
  { intros idx. unfold desc_heaps_of. subst rm'. cbn. by rewrite vlookup_map. }
  split_and!; try done.
  - subst rm'. by destruct rm as [d v pbs [pool|]].
  - subst rm'. by destruct rm as [d v pbs [pool|]].
  - subst rm'. by destruct rm as [d v pbs [pool|]].
  - intros [idx| |] index; [|done|done].
    unfold GetDescriptorHeap, GetDescriptorHeapPtr, bind, get, ret, throw.
    rewrite Hb. cbn [length]. by destruct (_ <=? _).
  - intros [idx| |]; [|done|done].
    unfold GetDefaultShaderVisibleDescriptorHeap,
      GetDefaultShaderVisibleDescriptorHeapPtr, bind, get, ret.
    by rewrite Hb.
  - intros A process_heap a. unfold ForEachDescriptorHeap.
    induction (enum (fin types_count)) as [|x l IH]; [done|].
    rewrite for_each_cons, for_each_heap_of_type_unfold, Hb. cbn.
    by rewrite (update_desc_heaps_same x [] rm' (Hb x)).
Qed.

Lemma invoke_program_bindings c (rm : ResourceManager) :
  heaps_typed rm →
  m_program_bindings (object_after (invoke c rm))
  = m_program_bindings rm ++ added_program_bindings [c].
Proof.
  intros HT. destruct c as [s| |b|pb|s]; cbn [ResourceManager.invoke];
    unfold added_program_bindings; cbn [omap list_omap]; rewrite ?app_nil_r.
  - destruct (Initialize_spec s rm) as (rm' & -> & _ & [Hp _] & _). done.
  - cbn. by destruct (m_sp_release_pool rm).
  - unfold SetDeferredHeapAllocation, bind, get. case_bool_decide; [done|].
    unfold modify, with_captured.
    destruct (ForEachDescriptorHeap_cases
                (λ descriptor_heap (_ : unit),
                   (SetDeferredAllocation b descriptor_heap, tt))
                (set_deferred_heap_allocation b rm) tt)
      as [(_ & rm' & [] & -> & _ & [Hp _] & _)|(Hbad & _)].
    + done.
    + by destruct Hbad.
  - done.
  - unfold bind. destruct (type s) as [idx| |] eqn:Ht.
    + by rewrite (CreateDescriptorHeap_valid s idx rm Ht).
    + unfold CreateDescriptorHeap. by rewrite Ht.
    + unfold CreateDescriptorHeap. by rewrite Ht.
Qed.

(** X22. Over any history of [Initialize], [Release],
    [SetDeferredHeapAllocation], [AddProgramBindings] and
    [CreateDescriptorHeap] calls from the constructor, as built without
    [_DEBUG], the registry of program bindings holds exactly the arguments
    of the [AddProgramBindings] calls, in the order of the calls and with
    repetitions: none of these five calls drops or reorders an entry, and
    [Release] followed by [Initialize], which rebuild the heaps, leave the
    registry as it is.  [CompleteInitialization], which erases the expired
    entries, is not among the calls of the history. *)
Theorem program_bindings_registered_in_order (calls : list (Call types_count))
    (settings : Settings types_count) :
  m_program_bindings (run calls new) = added_program_bindings calls
  ∧ m_program_bindings (run (calls ++ [CallRelease; CallInitialize settings]) new)
    = added_program_bindings calls.
Proof.
  assert (H : ∀ (l : list (Call types_count)) (rm : ResourceManager),
            heaps_typed rm →
            m_program_bindings (run l rm)
            = m_program_bindings rm ++ added_program_bindings l).
  { induction l as [|c l IH]; intros rm HT.
    - cbn. by rewrite app_nil_r.
    - cbn [ResourceManager.run].
      rewrite IH by by apply heaps_typed_invoke.
      rewrite (invoke_program_bindings c rm HT), <- app_assoc. f_equal.
      unfold added_program_bindings. by destruct c. }
  split.
  - by rewrite (H calls new heaps_typed_new).
  - rewrite (H _ new heaps_typed_new). cbn [m_program_bindings new app].
    unfold added_program_bindings. rewrite omap_app. cbn. by rewrite app_nil_r.
Qed.

End Manager.
Lemma GetDescriptorHeap_lookup_witness :
  0 ≤ 0
  ∧ GetDescriptorHeap (Enumerator 0%fin) 0 one_heap_manager
    = Return {| m_settings := first_type_heap 16 |} one_heap_manager.
Proof.
  split; [lia|].
  destruct (GetDescriptorHeap_lookup 2 (Enumerator 0%fin) 0 one_heap_manager
              ltac:(lia)) as (H & _ & _).
  exact H.
Defined.

Lemma CreateDescriptorHeap_keeps_indices_witness :
  let rm' :=
    object_after (CreateDescriptorHeap (first_type_heap 32) one_heap_manager) in
  0 ≤ 0
  ∧ GetDescriptorHeap (Enumerator 0%fin) 0 one_heap_manager
    = Return {| m_settings := first_type_heap 16 |} one_heap_manager
  ∧ GetDescriptorHeap (Enumerator 0%fin) 0 rm'
    = Return {| m_settings := first_type_heap 16 |} rm'.
Proof.
  split; [lia|]. split; [reflexivity|].
  exact (CreateDescriptorHeap_keeps_indices 2 (first_type_heap 32)
           (Enumerator 0%fin) 0 {| m_settings := first_type_heap 16 |} one_heap_manager
           ltac:(lia) eq_refl).
Defined.

End ResourceManagerFacts.

Module RenderPassFacts.
Import ResourceBase RenderPassBase.
Section RenderPass.

Context {Color4f Depth : Type}.
Variable Color4f_eq : Color4f → Color4f → bool.
Variable Depth_eq : Depth → Depth → bool.

Abbreviation RenderPassBase := (RenderPassBase Color4f Depth).
Abbreviation ColorAttachment := (ColorAttachment Color4f).
Abbreviation World := (World Color4f Depth).
Abbreviation Settings := (Settings Color4f Depth).

Lemma attachment_textures_app (l1 l2 : list ColorAttachment) :
  attachment_textures (l1 ++ l2)
  = attachment_textures l1 ++ attachment_textures l2.
Proof. apply omap_app. Qed.

Lemma attachment_textures_cons (c : ColorAttachment) l t :
  sp_texture (color_base c) = Some t →
  attachment_textures (c :: l) = t :: attachment_textures l.
Proof. intros Ht. unfold attachment_textures. cbn. by rewrite Ht. Qed.

Lemma attachment_textures_length (l : list ColorAttachment) :
  Forall has_texture l → length (attachment_textures l) = length l.
Proof.
  induction 1 as [|c l [t Ht] _ IH]; [done|].
  rewrite (attachment_textures_cons _ _ _ Ht). cbn. by rewrite IH.
Qed.

(** The loop of [GetColorAttachmentTextures] over attachments that all have
    a texture. *)
Lemma push_color_textures_all (atts : list ColorAttachment) :
  Forall has_texture atts →
  ∀ rp : RenderPassBase,
    for_each atts push_color_texture rp
    = Return tt (set_color_attachment_textures
                   (m_color_attachment_textures rp ++ attachment_textures atts)
                   rp).
Proof.
  induction 1 as [|c atts [t Ht] _ IH]; intros rp.
  - cbn. rewrite app_nil_r. by destruct rp.
  - cbn [for_each]. unfold bind, push_color_texture at 1. rewrite Ht.
    unfold modify. rewrite IH, (attachment_textures_cons _ _ _ Ht). cbn.
    by rewrite <- app_assoc.
Qed.

(** The same loop when it meets an attachment without texture. *)
Lemma push_color_textures_null (pre post : list ColorAttachment)
    (null_attachment : ColorAttachment) :
  Forall has_texture pre →
  sp_texture (color_base null_attachment) = None →
  ∀ rp : RenderPassBase,
    for_each (pre ++ null_attachment :: post) push_color_texture rp
    = Throw invalid_argument
        (set_color_attachment_textures
           (m_color_attachment_textures rp ++ attachment_textures pre) rp).
Proof.
  intros Hpre Hnull. induction Hpre as [|c pre [t Ht] _ IH]; intros rp.
  - cbn. unfold bind, push_color_texture. rewrite Hnull. cbn.
    rewrite app_nil_r. by destruct rp.
  - cbn [app for_each]. unfold bind, push_color_texture at 1. rewrite Ht.
    unfold modify. rewrite IH, (attachment_textures_cons _ _ _ Ht). cbn.
    by rewrite <- app_assoc.
Qed.

Lemma GetColorAttachmentTextures_cached (rp : RenderPassBase) :
  m_color_attachment_textures rp ≠ [] →
  GetColorAttachmentTextures rp = Return (m_color_attachment_textures rp) rp.
Proof.
  intros Hne. unfold GetColorAttachmentTextures, bind, get.
  by rewrite (bool_decide_eq_false_2 _ Hne).
Qed.

Lemma GetColorAttachmentTextures_fresh (rp : RenderPassBase) :
  m_color_attachment_textures rp = [] →
  Forall has_texture (color_attachments (m_settings rp)) →
  GetColorAttachmentTextures rp
  = Return (attachment_textures (color_attachments (m_settings rp)))
      (set_color_attachment_textures
         (attachment_textures (color_attachments (m_settings rp))) rp).
Proof.
  intros Hempty Hall. unfold GetColorAttachmentTextures, bind at 1, get at 1.
  rewrite (bool_decide_eq_true_2 _ Hempty). cbn [negb]. unfold bind at 1.
  rewrite (push_color_textures_all _ Hall). by rewrite Hempty.
Qed.

(** C10. A pass with an empty colour cache whose colour attachment at
    position [length pre > 0] has no texture, the ones before it having
    one: the first [GetColorAttachmentTextures] throws an invalid argument
    error and leaves the cache holding the textures of the attachments
    before the null one; every later call returns that non-empty partial
    list and changes nothing. *)
Theorem GetColorAttachmentTextures_partial_cache (rp : RenderPassBase)
    (pre post : list ColorAttachment) (null_attachment : ColorAttachment) :
  m_color_attachment_textures rp = [] →
  color_attachments (m_settings rp) = pre ++ null_attachment :: post →
  pre ≠ [] →
  Forall has_texture pre →
  sp_texture (color_base null_attachment) = None →
  let partial := attachment_textures pre in
  let rp' := set_color_attachment_textures partial rp in
  GetColorAttachmentTextures rp = Throw invalid_argument rp'
  ∧ length partial = length pre
  ∧ partial ≠ []
  ∧ GetColorAttachmentTextures rp' = Return partial rp'
  ∧ ∀ n : nat,
      let later :=
        Nat.iter n (λ s, object_after (GetColorAttachmentTextures s)) rp' in
      later = rp' ∧ GetColorAttachmentTextures later = Return partial later.
Proof.
  intros Hempty Hatts Hpre Hall Hnull partial rp'.
  assert (Hlen : length partial = length pre)
    by by apply attachment_textures_length.
  assert (Hne : partial ≠ []).
  { intros Hp. rewrite Hp in Hlen. destruct pre; [done|discriminate]. }
  assert (Hagain : GetColorAttachmentTextures rp' = Return partial rp').
  { by rewrite GetColorAttachmentTextures_cached. }
  split_and!; try done.
  - unfold GetColorAttachmentTextures, bind at 1, get at 1.
    rewrite (bool_decide_eq_true_2 _ Hempty). cbn [negb]. unfold bind at 1.
    rewrite Hatts, (push_color_textures_null pre post null_attachment Hall Hnull).
    by rewrite Hempty.
  - intros n. cbn zeta.
    assert (Hi : Nat.iter n (λ s, object_after (GetColorAttachmentTextures s)) rp'
                 = rp').
    { induction n as [|n IH]; [done|]. by rewrite Nat.iter_succ, IH, Hagain. }
    by rewrite Hi.
Qed.


(** *** Texture states *)

Lemma SetTextureState_returns state texture barriers (w : World) :
  SetTextureState state texture barriers w
  = Return ((SetState state barriers texture (textures w texture)).1)
      (set_textures
         (write_texture texture
            (SetState state barriers texture (textures w texture)).2
            (textures w)) w).
Proof.
  unfold SetTextureState, bind, get, put, ret.
  by destruct (SetState state barriers texture (textures w texture)) as [[? ?] ?].
Qed.

Lemma InitAttachmentStates_loop_returns (refs : list address) :
  ∀ barriers (w : World),
    ∃ ts', InitAttachmentStates_loop refs barriers w
           = Return tt (set_textures ts' w)
      ∧ initialised refs (textures w) ts'.
Proof.
  induction refs as [|ref refs IH]; intros barriers w.
  - exists (textures w). split; [by destruct w|].
    intros a. split; [done|]. rewrite bool_decide_eq_false_2; [done|].
    intros [Hin _]. by apply elem_of_nil in Hin.
  - cbn [InitAttachmentStates_loop]. unfold bind at 1, get at 1.
    case_bool_decide as Hc.
    + unfold bind at 1. rewrite SetTextureState_returns.
      unfold GetState in Hc. unfold SetState. rewrite Hc.
      rewrite bool_decide_eq_false_2 by done. cbn [fst snd].
      edestruct IH as (ts' & -> & Hts'). exists ts'. split; [done|].
      intros a. destruct (Hts' a) as [Hty Hst]. cbn in Hty, Hst.
      unfold write_texture in Hty, Hst.
      destruct (decide (a = ref)) as [->|Hne].
      * cbn in Hty, Hst. split; [done|]. rewrite Hst.
        rewrite bool_decide_eq_false_2 by (by intros [_ ?]).
        rewrite bool_decide_eq_true_2; [done|].
        split; [apply elem_of_cons; by left|done].
      * split; [done|]. rewrite Hst. erewrite bool_decide_ext; [reflexivity|].
        rewrite elem_of_cons. intuition.
    + edestruct IH as (ts' & -> & Hts'). exists ts'. split; [done|].
      intros a. destruct (Hts' a) as [Hty Hst]. split; [done|]. rewrite Hst.
      destruct (decide (a = ref)) as [->|Hne].
      * rewrite !bool_decide_eq_false_2; [done| |]; by intros [_ ?].
      * erewrite bool_decide_ext; [reflexivity|].
        rewrite elem_of_cons. intuition.
Qed.

Lemma first_null_attachment (l : list ColorAttachment) :
  ¬ Forall has_texture l →
  ∃ pre null_attachment post,
    l = pre ++ null_attachment :: post
    ∧ Forall has_texture pre
    ∧ sp_texture (color_base null_attachment) = None.
Proof.
  induction l as [|c l IH]; intros Hn.
  - destruct Hn. constructor.
  - destruct (sp_texture (color_base c)) as [t|] eqn:Ht.
    + destruct IH as (pre & x & post & -> & Hpre & Hx).
      { intros Hl. apply Hn. constructor; [by exists t|done]. }
      exists (c :: pre), x, post. split_and!; [done| |done].
      constructor; [by exists t|done].
    + exists [], c, l. split_and!; [done|constructor|done].
Qed.

Lemma InitAttachmentStates_returns (w : World) :
  m_color_attachment_textures (pass w) = [] →
  Forall has_texture (color_attachments (m_settings (pass w))) →
  let refs := attachment_textures (color_attachments (m_settings (pass w))) in
  ∃ ts',
    InitAttachmentStates w
    = Return tt {| pass := set_color_attachment_textures refs (pass w);
                   textures := ts';
                   render_command_list := render_command_list w |}
    ∧ initialised refs (textures w) ts'.
Proof.
  intros Hempty Hall refs. unfold InitAttachmentStates, bind at 1, on_pass.
  rewrite (GetColorAttachmentTextures_fresh _ Hempty Hall). fold refs.
  destruct (InitAttachmentStates_loop_returns refs None
              (set_pass (set_color_attachment_textures refs (pass w)) w))
    as (ts' & -> & Hts').
  by exists ts'.
Qed.

Lemma InitAttachmentStates_throws (w : World) pre null_attachment post :
  m_color_attachment_textures (pass w) = [] →
  color_attachments (m_settings (pass w)) = pre ++ null_attachment :: post →
  Forall has_texture pre →
  sp_texture (color_base null_attachment) = None →
  InitAttachmentStates w
  = Throw invalid_argument
      (set_pass (set_color_attachment_textures (attachment_textures pre) (pass w))
         w).
Proof.
  intros Hempty Hatts Hpre Hnull. unfold InitAttachmentStates, bind at 1, on_pass.
  unfold GetColorAttachmentTextures, bind at 1, get at 1.
  rewrite (bool_decide_eq_true_2 _ Hempty). cbn [negb]. unfold bind at 1.
  rewrite Hatts, (push_color_textures_null pre post null_attachment Hpre Hnull).
  by rewrite Hempty.
Qed.

Lemma Update_differing settings (w : World) :
  Settings_eq Color4f_eq Depth_eq (m_settings (pass w)) settings = false →
  Update Color4f_eq Depth_eq settings w
  = match InitAttachmentStates (set_pass (invalidated settings (pass w)) w) with
    | Return _ w' => Return true w'
    | Throw e w' => Throw e w'
    end.
Proof.
  intros Hne. unfold Update, bind at 1, get at 1. rewrite Hne.
  unfold bind at 1. unfold bind at 2. cbn. unfold bind at 1.
  change (set_end_transition_barriers _ _) with (invalidated settings (pass w)).
  by destruct (InitAttachmentStates _).
Qed.

(** C8 (amended). [Update] with settings equal to the current ones under
    [Settings::operator==] returns false and changes nothing: caches and
    barrier sets stay.  With differing settings whose colour attachments all
    have a texture it returns true, replaces the settings, drops the
    non-frame-buffer texture list, the depth texture pointer and both
    barrier sets, and leaves the colour texture list rebuilt from the new
    settings, the colour textures found in [Common] moved to [Present]; with
    differing settings that have a colour attachment without texture it
    throws an invalid argument error, the settings already replaced. *)
Theorem Update_settings (settings : Settings) (w : World) :
  (Settings_eq Color4f_eq Depth_eq (m_settings (pass w)) settings = true →
     Update Color4f_eq Depth_eq settings w = Return false w)
  ∧ (Settings_eq Color4f_eq Depth_eq (m_settings (pass w)) settings = false →
     Forall has_texture (color_attachments settings) →
     ∃ ts',
       Update Color4f_eq Depth_eq settings w
       = Return true
           {| pass :=
                {| m_settings := settings;
                   m_is_begun := m_is_begun (pass w);
                   m_non_frame_buffer_attachment_textures := [];
                   m_color_attachment_textures :=
                     attachment_textures (color_attachments settings);
                   m_p_depth_attachment_texture := None;
                   m_sp_begin_transition_barriers := None;
                   m_sp_end_transition_barriers := None |};
              textures := ts';
              render_command_list := render_command_list w |}
       ∧ initialised (attachment_textures (color_attachments settings))
           (textures w) ts')
  ∧ (Settings_eq Color4f_eq Depth_eq (m_settings (pass w)) settings = false →
     ¬ Forall has_texture (color_attachments settings) →
     ∃ w', Update Color4f_eq Depth_eq settings w = Throw invalid_argument w'
       ∧ m_settings (pass w') = settings
       ∧ m_non_frame_buffer_attachment_textures (pass w') = []
       ∧ m_sp_begin_transition_barriers (pass w') = None
       ∧ m_sp_end_transition_barriers (pass w') = None).
Proof.
  split_and!.
  - intros Heq. unfold Update, bind, get. by rewrite Heq.
  - intros Hne Hall. rewrite (Update_differing _ _ Hne).
    destruct (InitAttachmentStates_returns
                (set_pass (invalidated settings (pass w)) w) eq_refl Hall)
      as (ts' & -> & Hts').
    by exists ts'.
  - intros Hne Hnull. rewrite (Update_differing _ _ Hne).
    destruct (first_null_attachment _ Hnull) as (pre & x & post & Hl & Hpre & Hx).
    rewrite (InitAttachmentStates_throws
               (set_pass (invalidated settings (pass w)) w) pre x post
               eq_refl Hl Hpre Hx).
    eexists. split; [reflexivity|]. by cbn.
Qed.


(** *** [operator==] of the settings *)

Lemma Attachment_eq_spec (this other : Attachment) :
  Attachment_eq this other = true ↔ this = other.
Proof.
  destruct this, other. unfold Attachment_eq. cbn.
  rewrite !andb_true_iff, !bool_decide_eq_true. split.
  - intros [[[[[-> ->] ->] ->] ->] ->]. reflexivity.
  - intros [= -> -> -> -> -> ->]. repeat split.
Qed.

Lemma vector_eq_Forall2 {T} (eq : T → T → bool) (this other : list T) :
  vector_eq eq this other = true
  ↔ Forall2 (λ x y, eq x y = true) this other.
Proof.
  revert other. induction this as [|x this IH]; intros [|y other]; cbn.
  - split; [constructor|done].
  - split; [discriminate|by inversion 1].
  - split; [discriminate|by inversion 1].
  - rewrite andb_true_iff, IH. split.
    + intros [Hx Hl]. by constructor.
    + by inversion 1.
Qed.

Lemma Settings_eq_spec (this other : Settings) :
  Settings_eq Color4f_eq Depth_eq this other = true
  ↔ Forall2 (λ c c' : ColorAttachment,
               color_base c = color_base c'
               ∧ Color4f_eq (clear_color c) (clear_color c') = true)
            (color_attachments this) (color_attachments other)
    ∧ depth_base (depth_attachment this) = depth_base (depth_attachment other)
    ∧ Depth_eq (depth_clear_value (depth_attachment this))
               (depth_clear_value (depth_attachment other)) = true
    ∧ stencil_attachment this = stencil_attachment other
    ∧ shader_access_mask this = shader_access_mask other
    ∧ is_final_pass this = is_final_pass other.
Proof.
  unfold Settings_eq, DepthAttachment_eq, StencilAttachment_eq.
  rewrite !andb_true_iff, !bool_decide_eq_true, !Attachment_eq_spec,
    vector_eq_Forall2.
  assert (Hcol : Forall2 (λ x y : ColorAttachment,
                            ColorAttachment_eq Color4f_eq x y = true)
                         (color_attachments this) (color_attachments other)
                 ↔ Forall2 (λ c c' : ColorAttachment,
                              color_base c = color_base c'
                              ∧ Color4f_eq (clear_color c) (clear_color c') = true)
                           (color_attachments this) (color_attachments other)).
  { split; intros H; (eapply Forall2_impl; [exact H|]); intros x y;
      unfold ColorAttachment_eq; rewrite andb_true_iff, Attachment_eq_spec;
      done. }
  rewrite Hcol.
  destruct (stencil_attachment this) as [sb sv],
    (stencil_attachment other) as [sb' sv']. cbn.
  split.
  - intros [[[[Hc [Hdb Hdv]] [-> ->]] Hm] Hf]. done.
  - intros (Hc & Hdb & Hdv & [= -> ->] & Hm & Hf). done.
Qed.

(** X15. [Settings::operator==] holds of two settings exactly when they
    have as many colour attachments, pairwise with the same texture
    pointer, level, slice, depth plane and actions and with clear colours
    that are equal under their [operator==], depth attachments that agree
    in the same way, the same stencil attachment, shader-access mask and
    final-pass flag.  [Update] returns false, changing nothing, exactly
    when it holds of the settings of the pass and the new ones.  Hence
    [Update] with the very settings the pass has returns false exactly when
    every clear colour and the depth clear value are equal to themselves
    under their [operator==], which a floating-point NaN is not. *)
Theorem Settings_eq_memberwise (this other : Settings) (w : World) :
  (Settings_eq Color4f_eq Depth_eq this other = true
   ↔ Forall2 (λ c c' : ColorAttachment,
                color_base c = color_base c'
                ∧ Color4f_eq (clear_color c) (clear_color c') = true)
             (color_attachments this) (color_attachments other)
     ∧ depth_base (depth_attachment this) = depth_base (depth_attachment other)
     ∧ Depth_eq (depth_clear_value (depth_attachment this))
                (depth_clear_value (depth_attachment other)) = true
     ∧ stencil_attachment this = stencil_attachment other
     ∧ shader_access_mask this = shader_access_mask other
     ∧ is_final_pass this = is_final_pass other)
  ∧ (Update Color4f_eq Depth_eq other w = Return false w
     ↔ Settings_eq Color4f_eq Depth_eq (m_settings (pass w)) other = true)
  ∧ (Update Color4f_eq Depth_eq (m_settings (pass w)) w = Return false w
     ↔ Forall (λ c : ColorAttachment,
                 Color4f_eq (clear_color c) (clear_color c) = true)
              (color_attachments (m_settings (pass w)))
       ∧ Depth_eq (depth_clear_value (depth_attachment (m_settings (pass w))))
                  (depth_clear_value (depth_attachment (m_settings (pass w))))
         = true).
Proof.
  assert (Hup : ∀ settings : Settings,
            Update Color4f_eq Depth_eq settings w = Return false w
            ↔ Settings_eq Color4f_eq Depth_eq (m_settings (pass w)) settings
              = true).
  { intros settings. split.
    - intros Hu.
      destruct (Settings_eq Color4f_eq Depth_eq (m_settings (pass w)) settings)
        eqn:E; [done|].
      rewrite (Update_differing _ _ E) in Hu.
      destruct (InitAttachmentStates _); discriminate.
    - intros E. unfold Update, bind, get. by rewrite E. }
  split; [apply Settings_eq_spec|]. split; [apply Hup|].
  rewrite Hup, Settings_eq_spec. split.
  - intros (Hc & _ & Hd & _). split; [|done].
    induction (color_attachments (m_settings (pass w))) as [|c l IH];
      [constructor|].
    inversion Hc as [|? ? ? ? [_ Hx] Hl]; subst. constructor; [done|by apply IH].
  - intros [Hc Hd]. split_and!; try done.
    induction Hc as [|c l Hx _ IH]; constructor; done.
Qed.

(** *** [ReleaseAttachmentTextures] *)


(** *** [SetAttachmentStates] in general *)


Lemma SetTextureStates_spec state (refs : list address) :
  ∀ changed barriers (w : World),
    ∃ ts' added,
      SetTextureStates state refs changed barriers w
      = Return (changed || negb (bool_decide (added = [])),
                if bool_decide (added = []) then barriers
                else Some (default [] barriers ++ added))
          (set_textures ts' w)
      ∧ states_set state refs (textures w) ts'
      ∧ transitions_to state refs (textures w) added.
Proof.
  induction refs as [|ref refs IH]; intros changed barriers w.
  { exists (textures w), []. split_and!.
    - cbn. rewrite orb_false_r. by destruct w.
    - intros a. split; [done|]. rewrite bool_decide_eq_false_2; [done|].
      apply not_elem_of_nil.
    - split; [constructor|]. split; [|done].
      intros _ a Hin. by apply elem_of_nil in Hin. }
  cbn [SetTextureStates]. unfold bind at 1. rewrite SetTextureState_returns.
  unfold SetState. case_bool_decide as Hst; cbn [fst snd].
  - destruct (IH (changed || false) barriers
                (set_textures (write_texture ref (textures w ref) (textures w)) w))
      as (ts' & added & -> & Hts & Hadd & Hnil).
    cbn [textures set_textures] in Hts, Hadd, Hnil.
    assert (Hsame : ∀ a, write_texture ref (textures w ref) (textures w) a
                         = textures w a).
    { intros a. unfold write_texture. by destruct (decide (a = ref)) as [->|]. }
    exists ts', added. split_and!.
    + by rewrite orb_false_r.
    + intros a. destruct (Hts a) as [Hty Hs]. rewrite Hsame in Hty, Hs.
      split; [done|]. rewrite Hs.
      destruct (decide (a = ref)) as [->|Hne].
      * rewrite (bool_decide_eq_true_2 (ref ∈ ref :: refs))
          by (apply elem_of_cons; by left).
        by case_bool_decide.
      * erewrite (bool_decide_ext (a ∈ refs) (a ∈ ref :: refs)); [done|].
        rewrite elem_of_cons. intuition.
    + split.
      * eapply Forall_impl; [exact Hadd|]. intros b (Hb1 & Hb2 & Hb3 & Hb4 & Hb5).
        rewrite Hsame in Hb3. split_and!; try done.
        apply elem_of_cons. by right.
      * rewrite Hnil. split.
        -- intros Hall a [->|Hin]%elem_of_cons; [done|].
           rewrite <- Hsame. by apply Hall.
        -- intros Hall a Hin. rewrite Hsame. apply Hall, elem_of_cons. by right.
  - set (b0 := {| barrier_type := Transition; resource := ref;
                  state_before := m_state (textures w ref);
                  state_after := state |}).
    set (t1 := {| m_state := state;
                  texture_type := texture_type (textures w ref) |}).
    destruct (IH (changed || true) (Some (default [] barriers ++ [b0]))
                (set_textures (write_texture ref t1 (textures w)) w))
      as (ts' & added & -> & Hts & Hadd & Hnil).
    cbn [textures set_textures] in Hts, Hadd, Hnil.
    exists ts', (b0 :: added). split_and!.
    + rewrite (bool_decide_eq_false_2 (b0 :: added = [])) by done.
      rewrite !orb_true_r. cbn [orb negb default]. do 2 f_equal.
      case_bool_decide as Hn; [subst added; done|].
      cbn. by rewrite <- app_assoc.
    + intros a. destruct (Hts a) as [Hty Hs]. unfold write_texture in Hty, Hs.
      destruct (decide (a = ref)) as [->|Hne].
      * split; [done|]. rewrite Hs.
        rewrite (bool_decide_eq_true_2 (ref ∈ ref :: refs))
          by (apply elem_of_cons; by left).
        by case_bool_decide.
      * split; [done|]. rewrite Hs.
        erewrite (bool_decide_ext (a ∈ refs) (a ∈ ref :: refs)); [done|].
        rewrite elem_of_cons. intuition.
    + split.
      * constructor.
        -- split_and!; try done. apply elem_of_cons. by left.
        -- eapply Forall_impl; [exact Hadd|].
           intros b (Hb1 & Hb2 & Hb3 & Hb4 & Hb5).
           unfold write_texture in Hb3.
           destruct (decide (resource b = ref)) as [Heq|Hne].
           { exfalso. apply Hb5. by rewrite Hb3, Hb4. }
           split_and!; try done. apply elem_of_cons. by right.
      * split; [done|]. intros Hall. exfalso. apply Hst.
        apply Hall, elem_of_cons. by left.
Qed.







(** *** [Begin] and [End] on any pass *)

Lemma keeps_pass_status_bind {A B} (m : M World A) (k : A → M World B)
    (w : World) :
  keeps_pass_status w (m w) →
  (∀ a w1, same_pass_status w w1 → keeps_pass_status w1 (k a w1)) →
  keeps_pass_status w (bind m k w).
Proof.
  unfold bind. destruct (m w) as [a w1|e w1]; cbn; [|done].
  intros [Hb Hs] Hk. specialize (Hk a w1 (conj Hb Hs)).
  destruct (k a w1) as [b w2|e w2]; cbn in *.
  - destruct Hk as [Hb2 Hs2]. split; congruence.
  - destruct Hk as [He [Hb2 Hs2]]. split; [done|]. split; congruence.
Qed.

Lemma GetColorAttachmentTextures_outcome (rp : RenderPassBase) :
  ∃ l, object_after (GetColorAttachmentTextures rp)
       = set_color_attachment_textures l rp
    ∧ (thrown (GetColorAttachmentTextures rp) = None
       ∨ thrown (GetColorAttachmentTextures rp) = Some invalid_argument).
Proof.
  destruct (decide (m_color_attachment_textures rp = [])) as [Hempty|Hne].
  - destruct (decide (Forall (λ c : ColorAttachment,
                                is_Some (sp_texture (color_base c)))
                        (color_attachments (m_settings rp)))) as [Hall|Hnot].
    + rewrite (GetColorAttachmentTextures_fresh _ Hempty Hall).
      eexists. split; [reflexivity|by left].
    + destruct (first_null_attachment _ Hnot)
        as (pre & x & post & Hl & Hpre & Hx).
      assert (E : GetColorAttachmentTextures rp
                  = Throw invalid_argument
                      (set_color_attachment_textures
                         (m_color_attachment_textures rp
                          ++ attachment_textures pre) rp)).
      { unfold GetColorAttachmentTextures, bind at 1, get at 1.
        rewrite (bool_decide_eq_true_2 _ Hempty). cbn [negb]. unfold bind at 1.
        by rewrite Hl, (push_color_textures_null pre post x Hpre Hx). }
      rewrite E. eexists. split; [reflexivity|by right].
  - rewrite (GetColorAttachmentTextures_cached _ Hne).
    exists (m_color_attachment_textures rp). split; [by destruct rp|by left].
Qed.

Lemma GetDepthAttachmentTexture_returns (rp : RenderPassBase) :
  ∃ p, GetDepthAttachmentTexture rp
       = Return p (set_depth_attachment_texture p rp).
Proof.
  unfold GetDepthAttachmentTexture, bind, get, when.
  destruct rp as [s b nfb cs [d|] bb eb]; cbn.
  - by eexists.
  - destruct (sp_texture (depth_base (depth_attachment s))) as [d|]; cbn;
      by eexists.
Qed.

Lemma SetAttachmentStates_keeps_pass_status color_state depth_state barriers
    (w : World) :
  keeps_pass_status w (SetAttachmentStates color_state depth_state barriers w).
Proof.
  assert (Hstates : ∀ state refs changed bs (w1 : World),
            keeps_pass_status w1 (SetTextureStates state refs changed bs w1)).
  { intros state refs changed bs w1.
    destruct (SetTextureStates_spec state refs changed bs w1)
      as (ts' & added & -> & _). by split. }
  unfold SetAttachmentStates. apply keeps_pass_status_bind.
  { destruct color_state as [color_state|]; [|by split].
    apply keeps_pass_status_bind.
    - unfold on_pass.
      destruct (GetColorAttachmentTextures_outcome (pass w)) as (l & Ho & Ht).
      destruct (GetColorAttachmentTextures (pass w)) as [r rp|e rp];
        cbn in Ho, Ht; subst rp.
      + by split.
      + destruct Ht as [?|[= ->]]; [done|]. by split.
    - intros refs w1 _. apply Hstates. }
  intros [changed bs] w1 _. apply keeps_pass_status_bind.
  { destruct depth_state as [depth_state|]; [|by split].
    apply keeps_pass_status_bind.
    - unfold on_pass.
      destruct (GetDepthAttachmentTexture_returns (pass w1)) as (p & ->).
      by split.
    - intros [d|] w2 _; [apply Hstates|by split]. }
  intros [changed' bs'] w2 _. apply keeps_pass_status_bind.
  { destruct bs' as [tb|]; [|by split]. destruct changed'; by split. }
  intros _ w3 _. by split.
Qed.

Lemma Begin_outcome (w : World) :
  match Begin w with
  | Return _ w' =>
      m_is_begun (pass w) = false
      ∧ m_is_begun (pass w') = true
      ∧ m_settings (pass w') = m_settings (pass w)
  | Throw e w' =>
      if m_is_begun (pass w) then e = logic_error ∧ w' = w
      else e = invalid_argument ∧ same_pass_status w w'
  end.
Proof.
  unfold Begin, bind at 1, get at 1.
  destruct (m_is_begun (pass w)) eqn:Hb; [done|].
  unfold bind at 1.
  pose proof (SetAttachmentStates_keeps_pass_status (Some RenderTarget)
                (Some DepthWrite) (m_sp_begin_transition_barriers (pass w)) w)
    as Hk.
  destruct (SetAttachmentStates _ _ _ w) as [bs w1|e w1]; cbn in Hk.
  - destruct Hk as [_ Hs]. cbn. done.
  - exact Hk.
Qed.

Lemma End_outcome (w : World) :
  match End w with
  | Return _ w' =>
      m_is_begun (pass w) = true
      ∧ m_is_begun (pass w') = false
      ∧ m_settings (pass w') = m_settings (pass w)
  | Throw e w' =>
      if m_is_begun (pass w)
      then e = invalid_argument ∧ same_pass_status w w'
           ∧ is_final_pass (m_settings (pass w)) = true
      else e = logic_error ∧ w' = w
  end.
Proof.
  unfold End, bind at 1, get at 1.
  destruct (m_is_begun (pass w)) eqn:Hb; [|done].
  cbn [negb]. unfold bind at 1, when.
  destruct (is_final_pass (m_settings (pass w))) eqn:Hf.
  - unfold bind at 1.
    pose proof (SetAttachmentStates_keeps_pass_status (Some Present) None
                  (m_sp_end_transition_barriers (pass w)) w) as Hk.
    destruct (SetAttachmentStates _ _ _ w) as [bs w1|e w1]; cbn in Hk.
    + destruct Hk as [_ Hs]. cbn. done.
    + destruct Hk as [-> Hk]. done.
  - cbn. done.
Qed.

(** X19. [Begin] and [End] alternate on every pass.  [Begin] returns only
    on a pass that is not begun and leaves it begun, so that a second
    [Begin] throws a logic error and [End] does not; [End] returns only on a
    begun pass and leaves it not begun, so that a second [End] throws a
    logic error and [Begin] does not.  A call rejected with a logic error
    changes nothing; the one other error is the invalid argument error of a
    colour attachment without texture, which leaves the begun flag and the
    settings as they were.  Neither call changes the settings. *)
Theorem Begin_End_alternate (w : World) :
  match Begin w with
  | Return _ w' =>
      m_is_begun (pass w) = false
      ∧ m_is_begun (pass w') = true
      ∧ m_settings (pass w') = m_settings (pass w)
      ∧ Begin w' = Throw logic_error w'
      ∧ thrown (End w') ≠ Some logic_error
  | Throw e w' =>
      if m_is_begun (pass w) then e = logic_error ∧ w' = w
      else e = invalid_argument
           ∧ m_is_begun (pass w') = false
           ∧ m_settings (pass w') = m_settings (pass w)
  end
  ∧ match End w with
    | Return _ w' =>
        m_is_begun (pass w) = true
        ∧ m_is_begun (pass w') = false
        ∧ m_settings (pass w') = m_settings (pass w)
        ∧ End w' = Throw logic_error w'
        ∧ thrown (Begin w') ≠ Some logic_error
    | Throw e w' =>
        if m_is_begun (pass w)
        then e = invalid_argument
             ∧ m_is_begun (pass w') = true
             ∧ m_settings (pass w') = m_settings (pass w)
             ∧ is_final_pass (m_settings (pass w)) = true
        else e = logic_error ∧ w' = w
    end.
Proof.
  split.
  - pose proof (Begin_outcome w) as H.
    destruct (Begin w) as [[] w'|e w'].
    + destruct H as (Hb & Hb' & Hs). split_and!; try done.
      * unfold Begin, bind, get. by rewrite Hb'.
      * pose proof (End_outcome w') as HE. rewrite Hb' in HE.
        destruct (End w') as [[] w2|e w2]; [done|].
        destruct HE as [-> _]. cbn. congruence.
    + destruct (m_is_begun (pass w)) eqn:Hb; [done|].
      destruct H as [-> [Hb' Hs]]. split_and!; [done| |done]. congruence.
  - pose proof (End_outcome w) as H.
    destruct (End w) as [[] w'|e w'].
    + destruct H as (Hb & Hb' & Hs). split_and!; try done.
      * unfold End, bind, get. by rewrite Hb'.
      * pose proof (Begin_outcome w') as HB. rewrite Hb' in HB.
        destruct (Begin w') as [[] w2|e w2]; [done|].
        destruct HB as [-> _]. cbn. congruence.
    + destruct (m_is_begun (pass w)) eqn:Hb; [|done].
      destruct H as [-> [[Hb' Hs] Hf]]. split_and!; try done. congruence.
Qed.

(** *** [GetNonFrameBufferAttachmentTextures] and the constructor *)

Lemma non_frame_buffer_loop (atts : list ColorAttachment) :
  Forall has_texture atts →
  ∀ w : World,
    for_each atts (λ color_attach : ColorAttachment,
      match sp_texture (color_base color_attach) with
      | None => throw invalid_argument
      | Some sp_color_attachment =>
          w <- get ;;
          if bool_decide (texture_type (textures w sp_color_attachment)
                          = FrameBuffer)
          then ret tt
          else on_pass
                 (modify (λ rp, set_non_frame_buffer_attachment_textures
                                  (m_non_frame_buffer_attachment_textures rp
                                   ++ [sp_color_attachment]) rp))
      end) w
    = Return tt
        (set_pass
           (set_non_frame_buffer_attachment_textures
              (m_non_frame_buffer_attachment_textures (pass w)
               ++ non_frame_buffer_textures atts None None (textures w))
              (pass w)) w).
Proof.
  unfold non_frame_buffer_textures. cbn [option_list option_rect].
  induction 1 as [|c atts [t Ht] _ IH]; intros w.
  - cbn. rewrite !app_nil_r. by destruct w as [[]].
  - cbn [for_each]. unfold bind at 1. rewrite Ht.
    rewrite (attachment_textures_cons _ _ _ Ht). cbn [List.filter].
    unfold bind at 1, get at 1. case_bool_decide as Hfb; cbn [negb].
    + unfold ret at 1. apply IH.
    + unfold on_pass, modify. rewrite IH. cbn. rewrite !app_nil_r.
      by rewrite <- app_assoc.
Qed.

Lemma non_frame_buffer_loop_null (pre post : list ColorAttachment)
    (null_attachment : ColorAttachment) :
  Forall has_texture pre →
  sp_texture (color_base null_attachment) = None →
  ∀ w : World,
    for_each (pre ++ null_attachment :: post) (λ color_attach : ColorAttachment,
      match sp_texture (color_base color_attach) with
      | None => throw invalid_argument
      | Some sp_color_attachment =>
          w <- get ;;
          if bool_decide (texture_type (textures w sp_color_attachment)
                          = FrameBuffer)
          then ret tt
          else on_pass
                 (modify (λ rp, set_non_frame_buffer_attachment_textures
                                  (m_non_frame_buffer_attachment_textures rp
                                   ++ [sp_color_attachment]) rp))
      end) w
    = Throw invalid_argument
        (set_pass
           (set_non_frame_buffer_attachment_textures
              (m_non_frame_buffer_attachment_textures (pass w)
               ++ non_frame_buffer_textures pre None None (textures w))
              (pass w)) w).
Proof.
  unfold non_frame_buffer_textures. cbn [option_list option_rect].
  intros Hpre Hnull. induction Hpre as [|c pre [t Ht] _ IH]; intros w.
  - cbn. unfold bind. rewrite Hnull. cbn. rewrite !app_nil_r.
    by destruct w as [[]].
  - cbn [app for_each]. unfold bind at 1. rewrite Ht.
    rewrite (attachment_textures_cons _ _ _ Ht). cbn [List.filter].
    unfold bind at 1, get at 1. case_bool_decide as Hfb; cbn [negb].
    + unfold ret at 1. apply IH.
    + unfold on_pass, modify. rewrite IH. cbn. rewrite !app_nil_r.
      by rewrite <- app_assoc.
Qed.

(** X20. [GetNonFrameBufferAttachmentTextures] with a filled list returns
    it as it is.  With an empty list and a texture in every colour
    attachment it returns, and keeps, the colour attachment textures that
    are not frame buffers, in order, followed by the depth and the stencil
    attachment texture if there is one; the next call returns the same.
    With an empty list and a colour attachment without texture it throws an
    invalid argument error, leaving in the list what it collected from the
    attachments before that one. *)
Theorem GetNonFrameBufferAttachmentTextures_collects (w : World) :
  let settings := m_settings (pass w) in
  let depth := sp_texture (depth_base (depth_attachment settings)) in
  let stencil := sp_texture (stencil_base (stencil_attachment settings)) in
  let collected :=
    non_frame_buffer_textures (color_attachments settings) depth stencil
      (textures w) in
  (m_non_frame_buffer_attachment_textures (pass w) ≠ [] →
   GetNonFrameBufferAttachmentTextures w
   = Return (m_non_frame_buffer_attachment_textures (pass w)) w)
  ∧ (m_non_frame_buffer_attachment_textures (pass w) = [] →
     Forall has_texture (color_attachments settings) →
     let w' :=
       set_pass (set_non_frame_buffer_attachment_textures collected (pass w)) w in
     GetNonFrameBufferAttachmentTextures w = Return collected w'
     ∧ GetNonFrameBufferAttachmentTextures w' = Return collected w')
  ∧ (m_non_frame_buffer_attachment_textures (pass w) = [] →
     ∀ pre null_attachment post,
       color_attachments settings = pre ++ null_attachment :: post →
       Forall has_texture pre →
       sp_texture (color_base null_attachment) = None →
       GetNonFrameBufferAttachmentTextures w
       = Throw invalid_argument
           (set_pass
              (set_non_frame_buffer_attachment_textures
                 (non_frame_buffer_textures pre None None (textures w))
                 (pass w)) w)).
Proof.
  intros settings depth stencil collected.
  assert (Hcached : ∀ w1 : World,
            m_non_frame_buffer_attachment_textures (pass w1) ≠ [] →
            GetNonFrameBufferAttachmentTextures w1
            = Return (m_non_frame_buffer_attachment_textures (pass w1)) w1).
  { intros w1 Hne. unfold GetNonFrameBufferAttachmentTextures, bind, get.
    by rewrite (bool_decide_eq_false_2 _ Hne). }
  assert (Hfresh : ∀ w1 : World,
            m_non_frame_buffer_attachment_textures (pass w1) = [] →
            Forall has_texture (color_attachments (m_settings (pass w1))) →
            GetNonFrameBufferAttachmentTextures w1
            = Return
                (non_frame_buffer_textures
                   (color_attachments (m_settings (pass w1)))
                   (sp_texture (depth_base (depth_attachment (m_settings (pass w1)))))
                   (sp_texture (stencil_base (stencil_attachment (m_settings (pass w1)))))
                   (textures w1))
                (set_pass
                   (set_non_frame_buffer_attachment_textures
                      (non_frame_buffer_textures
                         (color_attachments (m_settings (pass w1)))
                         (sp_texture (depth_base (depth_attachment (m_settings (pass w1)))))
                         (sp_texture (stencil_base (stencil_attachment (m_settings (pass w1)))))
                         (textures w1))
                      (pass w1)) w1)).
  { intros w1 Hempty Hall.
    unfold GetNonFrameBufferAttachmentTextures, bind at 1, get at 1.
    rewrite (bool_decide_eq_true_2 _ Hempty). cbn [negb]. cbn zeta.
    unfold bind at 1. rewrite (non_frame_buffer_loop _ Hall). rewrite Hempty.
    unfold non_frame_buffer_textures. cbn [option_list option_rect app].
    rewrite !app_nil_r.
    destruct (sp_texture (depth_base (depth_attachment (m_settings (pass w1)))))
      as [d|],
      (sp_texture (stencil_base (stencil_attachment (m_settings (pass w1)))))
      as [s|]; cbn; rewrite ?app_nil_r, <- ?app_assoc; reflexivity. }
  split_and!.
  - apply Hcached.
  - intros Hempty Hall w'. split; [by apply Hfresh|].
    destruct (decide (collected = [])) as [Hc|Hc].
    + assert (Hw : w' = w).
      { subst w'. rewrite Hc. destruct w as [[] ? ?]. cbn in *. by subst. }
      rewrite Hw at 1. transitivity (@Return World _ collected w');
        [by apply Hfresh|reflexivity].
    + by rewrite Hcached.
  - intros Hempty pre x post Hl Hpre Hx.
    unfold GetNonFrameBufferAttachmentTextures, bind at 1, get at 1.
    rewrite (bool_decide_eq_true_2 _ Hempty). cbn [negb]. cbn zeta.
    unfold bind at 1. fold settings. rewrite Hl.
    rewrite (non_frame_buffer_loop_null pre post x Hpre Hx). by rewrite Hempty.
Qed.

(** X21. The constructor returns exactly when every colour attachment of
    the settings has a texture, and throws an invalid argument error
    otherwise.  The pass it returns is not begun, keeps no barriers, holds
    the settings and the list of their colour textures; the colour textures
    that were in [Common] are in [Present], no other texture has changed,
    and the command list was given nothing. *)
Theorem new_initialises_attachment_states (settings : Settings)
    (ts : Textures) (cl : RenderCommandListBase) :
  let colors := attachment_textures (color_attachments settings) in
  (Forall has_texture (color_attachments settings) →
   ∃ ts',
     new settings ts cl
     = Return tt
         {| pass := set_color_attachment_textures colors (initial settings);
            textures := ts';
            render_command_list := cl |}
     ∧ initialised colors ts ts'
     ∧ caches_coherent (set_color_attachment_textures colors (initial settings)))
  ∧ (¬ Forall has_texture (color_attachments settings) →
     thrown (new settings ts cl) = Some invalid_argument)
  ∧ render_command_list (object_after (new settings ts cl)) = cl
  ∧ m_is_begun (pass (object_after (new settings ts cl))) = false
  ∧ m_settings (pass (object_after (new settings ts cl))) = settings.
Proof.
  intros colors.
  assert (Hret : Forall has_texture (color_attachments settings) →
            ∃ ts',
              new settings ts cl
              = Return tt
                  {| pass := set_color_attachment_textures colors
                               (initial settings);
                     textures := ts';
                     render_command_list := cl |}
              ∧ initialised colors ts ts').
  { intros Hall. unfold new.
    destruct (InitAttachmentStates_returns
                {| pass := initial settings; textures := ts;
                   render_command_list := cl |} eq_refl Hall)
      as (ts' & -> & Hts').
    by exists ts'. }
  assert (Hthrow : ¬ Forall has_texture (color_attachments settings) →
            ∃ pre : list ColorAttachment, new settings ts cl
                   = Throw invalid_argument
                       {| pass := set_color_attachment_textures
                                    (attachment_textures pre) (initial settings);
                          textures := ts;
                          render_command_list := cl |}).
  { intros Hnot. unfold new.
    destruct (first_null_attachment _ Hnot) as (pre & x & post & Hl & Hpre & Hx).
    exists pre.
    by rewrite (InitAttachmentStates_throws
                  {| pass := initial settings; textures := ts;
                     render_command_list := cl |}
                  pre x post eq_refl Hl Hpre Hx). }
  assert (Hdec : Forall has_texture (color_attachments settings)
                 ∨ ¬ Forall has_texture (color_attachments settings)).
  { destruct (decide (Forall (λ c : ColorAttachment,
                                is_Some (sp_texture (color_base c)))
                        (color_attachments settings))); [by left|by right]. }
  split_and!.
  - intros Hall. destruct (Hret Hall) as (ts' & -> & Hts').
    exists ts'. split_and!; [done|done|]. split; [by right|by left].
  - intros Hnot. by destruct (Hthrow Hnot) as (pre & ->).
  - destruct Hdec as [Hall|Hnot].
    + by destruct (Hret Hall) as (ts' & -> & _).
    + by destruct (Hthrow Hnot) as (pre & ->).
  - destruct Hdec as [Hall|Hnot].
    + by destruct (Hret Hall) as (ts' & -> & _).
    + by destruct (Hthrow Hnot) as (pre & ->).
  - destruct Hdec as [Hall|Hnot].
    + by destruct (Hret Hall) as (ts' & -> & _).
    + by destruct (Hthrow Hnot) as (pre & ->).
Qed.

End RenderPass.

(** C8, as stated, fails: [Update] with differing settings that have a
    colour attachment without texture throws instead of returning true, and
    with differing settings that have textures it returns with the colour
    texture list filled again, not dropped. *)
Lemma Update_differing_settings_may_throw :
  let w := constructed (color_only_settings tt tt [] false) in
  let no_texture := color_only_settings tt tt [None] false in
  let one_texture := color_only_settings tt tt [Some 1%N] false in
  Settings_eq unit_eq unit_eq (m_settings (pass w)) no_texture = false
  ∧ thrown (Update unit_eq unit_eq no_texture w) = Some invalid_argument
  ∧ returned (Update unit_eq unit_eq no_texture w) ≠ Some true
  ∧ Settings_eq unit_eq unit_eq (m_settings (pass w)) one_texture = false
  ∧ returned (Update unit_eq unit_eq one_texture w) = Some true
  ∧ m_color_attachment_textures
      (pass (object_after (Update unit_eq unit_eq one_texture w)))
    = [1%N].
Proof. vm_compute. split_and!; done. Qed.

Lemma GetColorAttachmentTextures_partial_cache_witness :
  let rp :=
    initial (color_only_settings tt tt [Some 1%N; Some 2%N; None; Some 4%N]
               false) in
  let rp' := set_color_attachment_textures [1%N; 2%N] rp in
  GetColorAttachmentTextures rp = Throw invalid_argument rp'
  ∧ GetColorAttachmentTextures rp' = Return [1%N; 2%N] rp'.
Proof.
  destruct (GetColorAttachmentTextures_partial_cache
              (initial (color_only_settings tt tt
                          [Some 1%N; Some 2%N; None; Some 4%N] false))
              [ {| color_base := attachment_of (Some 1%N); clear_color := tt |};
                {| color_base := attachment_of (Some 2%N); clear_color := tt |} ]
              [ {| color_base := attachment_of (Some 4%N); clear_color := tt |} ]
              {| color_base := attachment_of None; clear_color := tt |}
              eq_refl eq_refl)
    as (Hfirst & _ & _ & Hnext & _).
  - discriminate.
  - repeat constructor; eexists; reflexivity.
  - reflexivity.
  - split; [exact Hfirst|exact Hnext].
Defined.


End RenderPassFacts.
